(** * TrailQuest: the itinerary, the preference store and the handlers of
      [AdventureApp] (src/App.tsx)

    The component keeps its state in React hooks.  Here every piece of state
    is a field of one record, every handler is a computation in a small
    state-and-exception monad over that record, and the timer that clears the
    error banner is a deadline on a logical clock counted in milliseconds. *)

From Stdlib Require Import ZArith NArith String List Sorted Permutation Lia.
From stdpp Require Import base tactics option list gmap strings fin_maps.

Open Scope string_scope.
Open Scope list_scope.
Open Scope Z_scope.

(** ** Data model *)

(** Modelled from the spec: the [POI] type of ./types/types, which is not
    part of the sources at hand.  The spec lists an identifier, a name, a
    category, an estimated visit duration, an estimated cost, a geographic
    coordinate and a best-visit-time hint.  Durations and costs are taken as
    integers (minutes and currency units), coordinates as fixed-point
    degrees. *)
Record POI : Type := mkPOI {
  poi_id : string;
  poi_name : string;
  poi_category : string;
  poi_duration : Z;
  poi_cost : Z;
  poi_coordinates : Z * Z;
  poi_bestTime : string
}.

#[global] Instance POI_eq_dec : EqDecision POI.
Proof. solve_decision. Defined.

(** The three tabs; the keys of [viewNames] in App.tsx. *)
Inductive ViewType : Type := planning | itinerary_view | settings.

#[global] Instance ViewType_eq_dec : EqDecision ViewType.
Proof. solve_decision. Defined.

(** The values that occur as fields of a preferences object: a string, an
    array of strings, or [undefined] (a key of a [Partial] may be present and
    hold [undefined]). *)
Inductive JsValue : Type :=
  | JUndefined
  | JString (s : string)
  | JStrings (l : list string).

#[global] Instance JsValue_eq_dec : EqDecision JsValue.
Proof. solve_decision. Defined.

(** A [UserPreferences] object, and a [Partial<UserPreferences>], as the
    finite map from its own keys to their values. *)
Abbreviation JsObject := (gmap string JsValue).

(** Modelled from the spec: the [Weather] snapshot of ./types/types
    (condition and temperature). *)
Record Weather : Type := mkWeather {
  weather_condition : string;
  weather_temperature : Z
}.

(** Modelled from the spec: a suggestion object of ./types/types; App.tsx
    reads its [title] only. *)
Record Suggestion : Type := mkSuggestion {
  suggestion_title : string;
  suggestion_rationale : string
}.

(** ** The itinerary model (hook [useItinerary]) *)

Module Itinerary.

(** Modelled from the spec: [addPOI] of ./hooks/useItinerary, which is not
    part of the sources at hand. "add(POI) — rejects duplicates, appends at
    end". *)
Definition addPOI (poi : POI) (prev : list POI) : list POI :=
  if decide (Exists (λ p, poi_id p = poi_id poi) prev) then prev
  else prev ++ [poi].

(** Modelled from the spec: [removePOI] of ./hooks/useItinerary. "remove(id)
    — removes matching entry, no-op if absent". *)
Definition removePOI (id : string) (prev : list POI) : list POI :=
  filter (λ p, poi_id p ≠ id) prev.

(** Modelled from the spec: [clearItinerary] of ./hooks/useItinerary.
    "clear() — empties the list". *)
Definition clearItinerary (prev : list POI) : list POI := [].

(** Modelled from the spec: [calculateTotalTime] and [calculateTotalCost]
    of ./hooks/useItinerary. "sum of entry attributes, pure functions of
    current state"; written as the left-to-right reduction from 0. *)
Definition calculateTotalTime (itin : list POI) : Z :=
  fold_left (λ sum poi, sum + poi_duration poi) itin 0.

Definition calculateTotalCost (itin : list POI) : Z :=
  fold_left (λ sum poi, sum + poi_cost poi) itin 0.

(** The operations of the claims about sequences of edits. *)
Inductive Edit : Type :=
  | Add (poi : POI)
  | Remove (id : string).

Definition apply_edit (e : Edit) (itin : list POI) : list POI :=
  match e with
  | Add poi => addPOI poi itin
  | Remove id => removePOI id itin
  end.

Definition apply_edits (es : list Edit) (itin : list POI) : list POI :=
  fold_left (λ acc e, apply_edit e acc) es itin.

(** Modelled from the spec: [optimizeItinerary] of ./hooks/useItinerary.
    The spec fixes no heuristic, only that the result is a deterministic
    reordering "using POI best-visit-time hints and naive proximity
    ordering", and proposes "sort by best-visit-time hint, tie-break by
    proximity to starting point".  The rank of a hint and the distance from
    the starting point are left open; the reordering is the stable sort
    (as [Array.prototype.sort] is) by the pair of them. *)
Section Optimize.
Variable hintRank : POI → nat.
Variable proximity : POI → nat.

Definition visit_before (p q : POI) : bool :=
  if decide (hintRank p = hintRank q)
  then bool_decide (proximity p ≤ proximity q)%nat
  else bool_decide (hintRank p < hintRank q)%nat.

Fixpoint place (p : POI) (sorted : list POI) : list POI :=
  match sorted with
  | [] => [p]
  | q :: rest => if visit_before p q then p :: q :: rest
                 else q :: place p rest
  end.

Definition optimize (itin : list POI) : list POI :=
  foldr place [] itin.
End Optimize.

End Itinerary.

(** ** The persisted preference store (hook [useLocalStorage]) *)

(** What a key of the browser storage holds, after parsing. *)
Inductive Stored : Type :=
  | SString (s : string)
  | SBool (b : bool)
  | SView (v : ViewType)
  | SObject (o : JsObject).

Abbreviation Storage := (gmap string Stored).

(** The type parameter [T] of [useLocalStorage<T>]: a type whose values can
    be written to the storage and read back. *)
Class Storable (T : Type) : Type := {
  toStored : T → Stored;
  ofStored : Stored → option T;
  ofStored_toStored : ∀ x : T, ofStored (toStored x) = Some x
}.

#[global, refine] Instance Storable_string : Storable string :=
  {| toStored := SString;
     ofStored v := match v with SString s => Some s | _ => None end |}.
Proof. reflexivity. Defined.

#[global, refine] Instance Storable_bool : Storable bool :=
  {| toStored := SBool;
     ofStored v := match v with SBool b => Some b | _ => None end |}.
Proof. reflexivity. Defined.

#[global, refine] Instance Storable_ViewType : Storable ViewType :=
  {| toStored := SView;
     ofStored v := match v with SView w => Some w | _ => None end |}.
Proof. reflexivity. Defined.

#[global, refine] Instance Storable_JsObject : Storable JsObject :=
  {| toStored := SObject;
     ofStored v := match v with SObject o => Some o | _ => None end |}.
Proof. reflexivity. Defined.

Module LocalStorage.

(** Modelled from the spec: the value returned by [useLocalStorage(key,
    initialValue)] of ./hooks/useLocalStorage, which is not part of the
    sources at hand. "Read returns a typed default when no stored value
    exists". *)
Definition read {T} `{Storable T} (key : string) (initialValue : T)
    (s : Storage) : T :=
  default initialValue (s !! key ≫= ofStored).

(** Modelled from the spec: the setter returned by [useLocalStorage].
    "Write persists immediately".  As the setter of [useState] it takes the
    new value or a function of the previous one; [write] is the second
    form, the first is [write] of a constant function. *)
Definition write {T} `{Storable T} (key : string) (initialValue : T)
    (f : T → T) (s : Storage) : Storage :=
  <[key := toStored (f (read key initialValue s))]> s.

End LocalStorage.

(** [DEFAULT_USER_PREFERENCES], App.tsx lines 28-32. *)
Definition DEFAULT_USER_PREFERENCES : JsObject :=
  <["interests" := JStrings []]>
    (<["mobilityLevel" := JString "moderate"]>
      (<["timePreference" := JString "flexible"]> ∅)).

(** ** The state of [AdventureApp] *)

(** A thrown JavaScript value. *)
Inductive Exn : Type := JsError (message : string).

(** An [async] function suspended at its [await]. *)
Inductive Suspended : Type := AwaitWeather | AwaitDownload.

#[global] Instance Suspended_eq_dec : EqDecision Suspended.
Proof. solve_decision. Defined.

Record AppState : Type := mkAppState {
  storage : Storage;                 (* the seven [useLocalStorage] cells *)
  selectedDate : string;
  weather : option Weather;
  isLoading : bool;
  error : option string;
  itinerary : list POI;              (* the state of [useItinerary] *)
  spoken : list string;              (* what [speak] has announced *)
  console : list (string * Exn);     (* what [console.error] has logged *)
  suspended : list Suspended;        (* pending [await]s *)
  now : N;                           (* the clock, in milliseconds *)
  errorTimer : option N              (* deadline of the pending [setTimeout] of lines 136-141 *)
}.

Definition set_storage (f : Storage → Storage) (st : AppState) : AppState :=
  mkAppState (f (storage st)) (selectedDate st) (weather st) (isLoading st)
    (error st) (itinerary st) (spoken st) (console st) (suspended st) (now st)
    (errorTimer st).
Definition set_selectedDate (v : string) (st : AppState) : AppState :=
  mkAppState (storage st) v (weather st) (isLoading st)
    (error st) (itinerary st) (spoken st) (console st) (suspended st) (now st)
    (errorTimer st).
Definition set_weather (v : option Weather) (st : AppState) : AppState :=
  mkAppState (storage st) (selectedDate st) v (isLoading st)
    (error st) (itinerary st) (spoken st) (console st) (suspended st) (now st)
    (errorTimer st).
Definition set_isLoading (v : bool) (st : AppState) : AppState :=
  mkAppState (storage st) (selectedDate st) (weather st) v
    (error st) (itinerary st) (spoken st) (console st) (suspended st) (now st)
    (errorTimer st).
Definition set_error (v : option string) (st : AppState) : AppState :=
  mkAppState (storage st) (selectedDate st) (weather st) (isLoading st)
    v (itinerary st) (spoken st) (console st) (suspended st) (now st)
    (errorTimer st).
Definition set_itinerary (f : list POI → list POI) (st : AppState) : AppState :=
  mkAppState (storage st) (selectedDate st) (weather st) (isLoading st)
    (error st) (f (itinerary st)) (spoken st) (console st) (suspended st)
    (now st) (errorTimer st).
Definition set_spoken (v : list string) (st : AppState) : AppState :=
  mkAppState (storage st) (selectedDate st) (weather st) (isLoading st)
    (error st) (itinerary st) v (console st) (suspended st) (now st)
    (errorTimer st).
Definition set_console (v : list (string * Exn)) (st : AppState) : AppState :=
  mkAppState (storage st) (selectedDate st) (weather st) (isLoading st)
    (error st) (itinerary st) (spoken st) v (suspended st) (now st)
    (errorTimer st).
Definition set_suspended (v : list Suspended) (st : AppState) : AppState :=
  mkAppState (storage st) (selectedDate st) (weather st) (isLoading st)
    (error st) (itinerary st) (spoken st) (console st) v (now st)
    (errorTimer st).
Definition set_now (v : N) (st : AppState) : AppState :=
  mkAppState (storage st) (selectedDate st) (weather st) (isLoading st)
    (error st) (itinerary st) (spoken st) (console st) (suspended st) v
    (errorTimer st).
Definition set_errorTimer (v : option N) (st : AppState) : AppState :=
  mkAppState (storage st) (selectedDate st) (weather st) (isLoading st)
    (error st) (itinerary st) (spoken st) (console st) (suspended st) (now st)
    v.

(** The persisted cells, read with the defaults of App.tsx lines 36-50. *)
Definition selectedRegion (st : AppState) : string :=
  LocalStorage.read "selectedRegion" "" (storage st).
Definition startingPoint (st : AppState) : string :=
  LocalStorage.read "startingPoint" "" (storage st).
Definition currentView (st : AppState) : ViewType :=
  LocalStorage.read "currentView" planning (storage st).
Definition privacyMode (st : AppState) : bool :=
  LocalStorage.read "privacyMode" false (storage st).
Definition offlineMode (st : AppState) : bool :=
  LocalStorage.read "offlineMode" false (storage st).
Definition voiceEnabled (st : AppState) : bool :=
  LocalStorage.read "voiceEnabled" false (storage st).
Definition userPreferences (st : AppState) : JsObject :=
  LocalStorage.read "userPreferences" DEFAULT_USER_PREFERENCES (storage st).

(** ** Computations: state and exceptions *)

Inductive Outcome (A : Type) : Type :=
  | Returns (a : A) (st : AppState)
  | Throws (e : Exn) (st : AppState).
Arguments Returns {A} a st.
Arguments Throws {A} e st.

Definition M (A : Type) : Type := AppState → Outcome A.

#[global] Instance M_ret : MRet M := λ A a st, Returns a st.
#[global] Instance M_bind : MBind M := λ A B f m st,
  match m st with
  | Returns a st' => f a st'
  | Throws e st' => Throws e st'
  end.

(** [try { body } catch (err) { handler err }] *)
Definition try_catch {A} (body : M A) (handler : Exn → M A) : M A := λ st,
  match body st with
  | Returns a st' => Returns a st'
  | Throws e st' => handler e st'
  end.

(** [try { body } finally { final }]; an exception of [final] replaces the
    one of [body]. *)
Definition try_finally {A} (body : M A) (final : M unit) : M A := λ st,
  match body st with
  | Returns a st' =>
      match final st' with
      | Returns _ st'' => Returns a st''
      | Throws e st'' => Throws e st''
      end
  | Throws e st' =>
      match final st' with
      | Returns _ st'' => Throws e st''
      | Throws e' st'' => Throws e' st''
      end
  end.

Definition modify (f : AppState → AppState) : M unit := λ st, Returns tt (f st).

(** The state a computation leaves, whether it returned or threw. *)
Definition state_of {A} (o : Outcome A) : AppState :=
  match o with
  | Returns _ st => st
  | Throws _ st => st
  end.

Definition threw {A} (o : Outcome A) : bool :=
  match o with
  | Returns _ _ => false
  | Throws _ _ => true
  end.

(** ** The component [AdventureApp] *)

(** The values JavaScript takes as true in [if (error)]: a string other than
    the empty one. *)
Definition truthy (v : option string) : bool :=
  match v with
  | Some s => bool_decide (s ≠ "")
  | None => false
  end.

(** [{...prev, ...updates}]: the keys of [updates] win. *)
Definition spread (prev updates : JsObject) : JsObject := updates ∪ prev.

(** [viewNames], App.tsx lines 146-150. *)
Definition viewNames (v : ViewType) : string :=
  match v with
  | planning => "Trip Planning"
  | itinerary_view => "My Itinerary"
  | settings => "Settings and AI Suggestions"
  end.

Section App.

(** What App.tsx imports and the sources at hand do not contain: the static
    data of ./data/sampleData, the reordering computed by
    [optimizeItinerary] of ./hooks/useItinerary, which may throw, and the
    suggestion engine of ./hooks/useAISuggestions. *)
Variable samplePOIs : gmap string (list POI).
Variable mockWeather : Weather.
Variable optimizeHook : list POI → Exn + list POI.
Variable useAISuggestions : string → list POI → JsObject → list Suggestion.

(** *** State setters *)

Definition setSelectedRegion (v : string) : M unit :=
  modify (set_storage (LocalStorage.write "selectedRegion" "" (λ _, v))).
Definition setStartingPoint (v : string) : M unit :=
  modify (set_storage (LocalStorage.write "startingPoint" "" (λ _, v))).
Definition setCurrentView (v : ViewType) : M unit :=
  modify (set_storage (LocalStorage.write "currentView" planning (λ _, v))).
Definition setPrivacyMode (v : bool) : M unit :=
  modify (set_storage (LocalStorage.write "privacyMode" false (λ _, v))).
Definition setOfflineMode (v : bool) : M unit :=
  modify (set_storage (LocalStorage.write "offlineMode" false (λ _, v))).
Definition setVoiceEnabled (v : bool) : M unit :=
  modify (set_storage (LocalStorage.write "voiceEnabled" false (λ _, v))).
Definition setUserPreferences (f : JsObject → JsObject) : M unit :=
  modify (set_storage
            (LocalStorage.write "userPreferences" DEFAULT_USER_PREFERENCES f)).

Definition setSelectedDate (v : string) : M unit := modify (set_selectedDate v).
Definition setWeather (v : option Weather) : M unit := modify (set_weather v).
Definition setIsLoading (v : bool) : M unit := modify (set_isLoading v).
Definition setError (v : option string) : M unit := modify (set_error v).

(** *** Hooks *)

(** Modelled from the spec: [useSpeech(voiceEnabled)] of ./hooks/useSpeech.
    "performs a fire-and-forget announcement if the voice setting is enabled,
    otherwise no-op; never blocks the caller". *)
Definition speak (text : string) : M unit := λ st,
  Returns tt (if voiceEnabled st then set_spoken (spoken st ++ [text]) st
              else st).

Definition console_error (label : string) (err : Exn) : M unit :=
  modify (λ st, set_console (console st ++ [(label, err)]) st).

(** [availablePOIs], App.tsx lines 61-64. *)
Definition availablePOIs (st : AppState) : list POI :=
  if decide (selectedRegion st = "") then []
  else default [] (samplePOIs !! selectedRegion st).

(** [aiSuggestions], App.tsx line 66: the engine is handed the region, the
    available POIs and the preferences, and nothing else. *)
Definition aiSuggestions (st : AppState) : list Suggestion :=
  useAISuggestions (selectedRegion st) (availablePOIs st) (userPreferences st).

(** The operations [useItinerary] returns (App.tsx lines 67-75), on the
    itinerary cell of the state. *)
Definition addPOI (poi : POI) : M unit :=
  modify (set_itinerary (Itinerary.addPOI poi)).
Definition removePOI (id : string) : M unit :=
  modify (set_itinerary (Itinerary.removePOI id)).
Definition clearItinerary : M unit :=
  modify (set_itinerary Itinerary.clearItinerary).
Definition calculateTotalTime (st : AppState) : Z :=
  Itinerary.calculateTotalTime (itinerary st).
Definition calculateTotalCost (st : AppState) : Z :=
  Itinerary.calculateTotalCost (itinerary st).

(** Modelled from the spec: how [optimizeItinerary] of ./hooks/useItinerary
    fails. "optimize failure ... itinerary state left unchanged (no partial
    reorder)": the new order is computed first and stored only when that
    computation has not thrown. *)
Definition optimizeItinerary : M unit := λ st,
  match optimizeHook (itinerary st) with
  | inl err => Throws err st
  | inr reordered => Returns tt (set_itinerary (λ _, reordered) st)
  end.

(** *** Handlers *)

(** [handleRegionChange], App.tsx lines 78-84.  [selectedRegion] in the
    comparison is the value the callback closed over, the one of the state
    the handler is called in. *)
Definition handleRegionChange (region : string) : M unit := λ st,
  let selectedRegion := selectedRegion st in
  (setSelectedRegion region ;;
   if bool_decide (region ≠ selectedRegion) then clearItinerary
   else mret tt) st.

(** [handleOptimizeItinerary], App.tsx lines 86-94. *)
Definition handleOptimizeItinerary : M unit :=
  try_catch
    (optimizeItinerary ;;
     speak "Itinerary optimized for best visiting times and travel efficiency.")
    (λ err,
     setError (Some "Failed to optimize itinerary. Please try again.") ;;
     console_error "Optimization error:" err).

(** [downloadOfflineContent], App.tsx lines 96-110, up to its [await] ... *)
Definition downloadOfflineContent_start : M unit :=
  setIsLoading true ;;
  modify (λ st, set_suspended (suspended st ++ [AwaitDownload]) st).

(** ... and from the [await] on, when the 2000 ms promise has resolved. *)
Definition downloadOfflineContent_resume : M unit :=
  try_finally
    (try_catch
       (setOfflineMode true ;;
        speak "Offline content downloaded. Maps and site information available without internet.")
       (λ err,
        setError (Some "Failed to download offline content. Please check your connection.") ;;
        console_error "Offline download error:" err))
    (setIsLoading false).

(** [handleUserPreferencesUpdate], App.tsx lines 112-114. *)
Definition handleUserPreferencesUpdate (updates : JsObject) : M unit :=
  setUserPreferences (λ prev, spread prev updates).

(** [loadWeatherData], App.tsx lines 118-130, up to its [await] ... *)
Definition loadWeatherData_start : M unit :=
  setIsLoading true ;;
  modify (λ st, set_suspended (suspended st ++ [AwaitWeather]) st).

(** ... and from the [await] on, when the 1000 ms promise has resolved. *)
Definition loadWeatherData_resume : M unit :=
  try_finally
    (try_catch
       (setWeather (Some mockWeather))
       (λ err,
        setError (Some "Failed to load weather data") ;;
        console_error "Weather loading error:" err))
    (setIsLoading false).

(** [applyAISuggestion], App.tsx lines 258-261. *)
Definition applyAISuggestion (suggestion : Suggestion) : M unit :=
  (* Logic to apply AI suggestion to itinerary *)
  speak ("Applied AI suggestion: " +:+ suggestion_title suggestion).

(** *** Effects *)

(** The effect of lines 117-133, dependency [selectedRegion]. *)
Definition weatherEffect_body : M unit := loadWeatherData_start.

Definition weatherEffect (prev st : AppState) : AppState :=
  if decide (selectedRegion prev = selectedRegion st) then st
  else state_of (weatherEffect_body st).

(** The effect of lines 136-141, dependency [error]: when [error] has
    changed, the cleanup of the previous run cancels its timer, then a truthy
    [error] starts a timer of 5000 ms. *)
Definition errorEffect_body (st : AppState) : AppState :=
  if truthy (error st) then set_errorTimer (Some (now st + 5000)%N) st
  else st.

Definition errorEffect (prev st : AppState) : AppState :=
  if decide (error prev = error st) then st
  else errorEffect_body (set_errorTimer None st).

(** The effect of lines 144-153, dependencies [currentView], [voiceEnabled]
    and [speak]; [speak] is taken to change with [voiceEnabled] only. *)
Definition viewEffect_body : M unit := λ st,
  if voiceEnabled st
  then speak ("Switched to " +:+ viewNames (currentView st) +:+ " view") st
  else Returns tt st.

Definition viewEffect (prev st : AppState) : AppState :=
  if decide (currentView prev = currentView st
             ∧ voiceEnabled prev = voiceEnabled st) then st
  else state_of (viewEffect_body st).

(** The effects that run after a render, in the order of the source. *)
Definition effects (prev st : AppState) : AppState :=
  viewEffect prev (errorEffect prev (weatherEffect prev st)).

(** The first render: the persisted cells as the storage has them, the rest
    at its initial value, and every effect run once. *)
Definition mount (persisted : Storage) (today : string) (t0 : N) : AppState :=
  let st := mkAppState persisted today None false None [] [] [] [] t0 None in
  state_of (viewEffect_body (errorEffect_body (state_of (weatherEffect_body st)))).

(** *** Events *)

(** What can happen to the mounted component: a child calls one of the
    callbacks it was handed, a pending promise resolves, or time passes. *)
Inductive Action : Type :=
  | RegionChange (region : string)
  | SetSelectedDate (date : string)
  | SetStartingPoint (place : string)
  | SetCurrentView (view : ViewType)
  | SetPrivacyMode (on : bool)
  | SetVoiceEnabled (on : bool)
  | UserPreferencesUpdate (updates : JsObject)
  | DownloadOfflineContent
  | AddPOI (poi : POI)
  | RemovePOI (id : string)
  | OptimizeItinerary
  | ClearItinerary
  | ApplyAISuggestion (suggestion : Suggestion)
  | Speak (text : string)
  | Resolve (k : Suspended)
  | Elapse (ms : N).

(** A suspended [async] function continues, if there is one. *)
Definition resume (k : Suspended) : M unit := λ st,
  match list_find (λ k', k' = k) (suspended st) with
  | Some (i, _) =>
      let rest := delete i (suspended st) in
      match k with
      | AwaitWeather => loadWeatherData_resume (set_suspended rest st)
      | AwaitDownload => downloadOfflineContent_resume (set_suspended rest st)
      end
  | None => Returns tt st
  end.

Definition handler (a : Action) : M unit :=
  match a with
  | RegionChange region => handleRegionChange region
  | SetSelectedDate date => setSelectedDate date
  | SetStartingPoint place => setStartingPoint place
  | SetCurrentView view => setCurrentView view
  | SetPrivacyMode on => setPrivacyMode on
  | SetVoiceEnabled on => setVoiceEnabled on
  | UserPreferencesUpdate updates => handleUserPreferencesUpdate updates
  | DownloadOfflineContent => downloadOfflineContent_start
  | AddPOI poi => addPOI poi
  | RemovePOI id => removePOI id
  | OptimizeItinerary => handleOptimizeItinerary
  | ClearItinerary => clearItinerary
  | ApplyAISuggestion suggestion => applyAISuggestion suggestion
  | Speak text => speak text
  | Resolve k => resume k
  | Elapse _ => mret tt
  end.

(** Time passes: the clock moves on by [ms], and a timer whose deadline falls
    within that span runs its callback [() => setError(null)] at the
    deadline. *)
Definition elapse (ms : N) (st : AppState) : AppState :=
  let target := (now st + ms)%N in
  match errorTimer st with
  | Some deadline =>
      if (deadline <=? target)%N then
        let fired := set_errorTimer None (set_now (N.max (now st) deadline) st) in
        set_now target (effects fired (state_of (setError None fired)))
      else set_now target st
  | None => set_now target st
  end.

(** One event: the handler runs to its end, an exception it lets through is
    dropped by the event loop, then the effects run. *)
Definition step (a : Action) (st : AppState) : AppState :=
  match a with
  | Elapse ms => elapse ms st
  | _ => effects st (state_of (handler a st))
  end.

Definition run (trace : list Action) (st : AppState) : AppState :=
  fold_left (λ s a, step a s) trace st.

Inductive reachable : AppState → Prop :=
  | reachable_mount persisted today t0 : reachable (mount persisted today t0)
  | reachable_step a st : reachable st → reachable (step a st).

Definition is_elapse (a : Action) : bool :=
  match a with Elapse _ => true | _ => false end.

(** An event is quiet when its handler leaves the error slot as it found
    it: it raised no error, or it raised the one the slot is showing. *)
Definition quiet (a : Action) (st : AppState) : bool :=
  bool_decide (error (state_of (handler a st)) = error st).

Fixpoint quiet_run (trace : list Action) (st : AppState) : bool :=
  match trace with
  | [] => true
  | a :: rest => quiet a st && quiet_run rest (step a st)
  end.

End App.

(** ** Predicates on states *)

(** The three messages the handlers of App.tsx put into the error slot. *)
Definition raised (v : option string) : Prop :=
  v = Some "Failed to optimize itinerary. Please try again."
  ∨ v = Some "Failed to download offline content. Please check your connection."
  ∨ v = Some "Failed to load weather data".

(** While a message is shown its timer is pending and due within 5000 ms;
    while none is shown no timer is pending. *)
Definition timer_inv (st : AppState) : Prop :=
  match error st with
  | Some m =>
      ∃ deadline, errorTimer st = Some deadline
                  ∧ (now st < deadline ≤ now st + 5000)%N
  | None => errorTimer st = None
  end.

(** The two phases of a message [m] whose timer is due at [deadline]. *)
Definition showing (m : string) (deadline : N) (st : AppState) : Prop :=
  error st = Some m ∧ errorTimer st = Some deadline ∧ (now st < deadline)%N.

Definition cleared (deadline : N) (st : AppState) : Prop :=
  error st = None ∧ errorTimer st = None ∧ (deadline ≤ now st)%N.

(** ** Sample data *)

Definition poiA : POI :=
  mkPOI "A" "Humpback Rocks" "trail" 60 0 (37968000, -78897000) "morning".
Definition poiB : POI :=
  mkPOI "B" "Monticello" "historic" 90 15 (38008000, -78453000) "afternoon".

(** An entry without a best-visit-time hint. *)
Definition poiC : POI :=
  mkPOI "C" "Unnamed overlook" "viewpoint" 30 0 (38030000, -78860000) "".

Definition sampleWeather : Weather := mkWeather "Sunny" 72.

Definition sampleSuggestion : Suggestion :=
  mkSuggestion "Add Monticello" "Matches your interest in history".

Definition sampleRank (p : POI) : nat :=
  if decide (poi_bestTime p = "morning") then 0%nat
  else if decide (poi_bestTime p = "afternoon") then 1%nat
  else 2%nat.

Definition sampleDistance (p : POI) : nat :=
  Z.to_nat (Z.abs (fst (poi_coordinates p) - 38000000)
            + Z.abs (snd (poi_coordinates p) + 78500000)).

(** A reordering that fails on an entry without a hint. *)
Definition sampleHook (itin : list POI) : Exn + list POI :=
  if decide (Exists (λ p, poi_bestTime p = "") itin)
  then inl (JsError "entry without a best time")
  else inr (Itinerary.optimize sampleRank sampleDistance itin).

(** The message of [handleOptimizeItinerary]. *)
Definition optimizeMessage : string :=
  "Failed to optimize itinerary. Please try again.".

(** A trip in the Blue Ridge Mountains with two stops. *)
Definition planned : AppState :=
  run sampleWeather sampleHook
    [RegionChange "Blue Ridge Mountains, VA"; AddPOI poiA; AddPOI poiB]
    (mount ∅ "2025-06-01" 0).

(** A trip with a stop that [sampleHook] cannot place. *)
Definition unplaceable : AppState :=
  run sampleWeather sampleHook
    [RegionChange "Blue Ridge Mountains, VA"; AddPOI poiA; AddPOI poiC]
    (mount ∅ "2025-06-01" 0).

(** The same trip with the voice on and Humpback Rocks alone. *)
Definition announced : AppState :=
  run sampleWeather sampleHook
    [SetVoiceEnabled true; RegionChange "Blue Ridge Mountains, VA";
     AddPOI poiA]
    (mount ∅ "2025-06-01" 0).


(** ** What the component renders *)

(** The child components of the page, App.tsx lines 195-264, with the list
    [POIList] is handed. *)
Inductive Panel : Type :=
  | PlanningPanel
  | POIList (pois : list POI)
  | MapPanel
  | ItineraryPanel
  | SettingsPanel
  | AISuggestionsPanel.

(** The page of lines 163-267: the error notification, the offline
    indicator, the two properties [NavigationTabs] is handed, and the panels
    of the current view. *)
Record Page : Type := mkPage {
  errorNotification : option string;
  offlineIndicator : bool;
  tabs_currentView : ViewType;
  tabs_hasItineraryItems : bool;
  panels : list Panel
}.

Inductive Screen : Type :=
  | LoadingSpinner
  | Rendered (page : Page).

(** The value [AdventureApp] returns, App.tsx lines 155-267. *)
Definition render (samplePOIs : gmap string (list POI)) (st : AppState)
    : Screen :=
  if isLoading st then LoadingSpinner
  else
    Rendered
      {| errorNotification := if truthy (error st) then error st else None;
         offlineIndicator := offlineMode st;
         tabs_currentView := currentView st;
         tabs_hasItineraryItems := bool_decide (0 < length (itinerary st))%nat;
         panels :=
           match currentView st with
           | planning =>
               [PlanningPanel; POIList (availablePOIs samplePOIs st); MapPanel]
           | itinerary_view => [ItineraryPanel]
           | settings => [SettingsPanel; AISuggestionsPanel]
           end |}.

(** The six persisted settings beside the preferences. *)
Definition settings_of (st : AppState)
    : string * string * ViewType * bool * bool * bool :=
  (selectedRegion st, startingPoint st, currentView st, privacyMode st,
   offlineMode st, voiceEnabled st).

(** The announcement of the effect of lines 144-153. *)
Definition viewAnnouncement (view : ViewType) : string :=
  "Switched to " +:+ viewNames view +:+ " view".

(** The elapsed time of a trace. *)
Definition elapsed (trace : list Action) : N :=
  foldr (λ a total, match a with Elapse ms => (ms + total)%N | _ => total end)
        0%N trace.

(** ** More sample data *)

Definition sampleTable : gmap string (list POI) :=
  <["Blue Ridge Mountains, VA" := [poiA; poiB; poiC]]> ∅.

(** [unplaceable], the optimisation just failed. *)
Definition failed : AppState :=
  step sampleWeather sampleHook OptimizeItinerary unplaceable.

(** [planned], the offline content downloaded. *)
Definition downloaded : AppState :=
  run sampleWeather sampleHook
    [Resolve AwaitWeather; DownloadOfflineContent; Resolve AwaitDownload]
    planned.

(** A trace in which [POIList] adds only POIs it was handed. *)
Fixpoint offered (samplePOIs : gmap string (list POI)) (mockWeather : Weather)
    (optimizeHook : list POI → Exn + list POI)
    (trace : list Action) (st : AppState) : Prop :=
  match trace with
  | [] => True
  | a :: rest =>
      match a with
      | AddPOI poi => poi ∈ availablePOIs samplePOIs st
      | _ => True
      end
      ∧ offered samplePOIs mockWeather optimizeHook rest
          (step mockWeather optimizeHook a st)
  end.

(** A visit: the weather loads, a region is chosen, two stops are added, one
    of them without a hint, and the itinerary tab is opened. *)
Definition touring : AppState :=
  run sampleWeather sampleHook
    [Resolve AwaitWeather; RegionChange "Blue Ridge Mountains, VA";
     Resolve AwaitWeather; AddPOI poiA; AddPOI poiC;
     SetCurrentView itinerary_view]
    (mount ∅ "2025-06-01" 0).
(** * Properties *)

Section AppFacts.

Variable samplePOIs : gmap string (list POI).
Variable mockWeather : Weather.
Variable optimizeHook : list POI → Exn + list POI.
Variable useAISuggestions : string → list POI → JsObject → list Suggestion.

Local Abbreviation availablePOIs := (availablePOIs samplePOIs).
Local Abbreviation aiSuggestions := (aiSuggestions samplePOIs useAISuggestions).
Local Abbreviation optimizeItinerary := (optimizeItinerary optimizeHook).
Local Abbreviation handleOptimizeItinerary :=
  (handleOptimizeItinerary optimizeHook).
Local Abbreviation loadWeatherData_resume :=
  (loadWeatherData_resume mockWeather).
Local Abbreviation resume := (resume mockWeather).
Local Abbreviation handler := (handler mockWeather optimizeHook).
Local Abbreviation step := (step mockWeather optimizeHook).
Local Abbreviation run := (run mockWeather optimizeHook).
Local Abbreviation reachable := (reachable mockWeather optimizeHook).
Local Abbreviation quiet := (quiet mockWeather optimizeHook).
Local Abbreviation quiet_run := (quiet_run mockWeather optimizeHook).

(** ** The preference store *)

Arguments LocalStorage.read : simpl never.
Arguments LocalStorage.write : simpl never.

Lemma read_empty {T} `{Storable T} (key : string) (initialValue : T) :
  LocalStorage.read key initialValue ∅ = initialValue.
Proof. unfold LocalStorage.read. by rewrite lookup_empty. Qed.

Lemma read_write {T} `{Storable T} (key : string) (initialValue : T)
    (f : T → T) (s : Storage) :
  LocalStorage.read key initialValue (LocalStorage.write key initialValue f s)
  = f (LocalStorage.read key initialValue s).
Proof.
  unfold LocalStorage.write. generalize (f (LocalStorage.read key initialValue s)).
  intros v. unfold LocalStorage.read.
  rewrite lookup_insert_eq. cbn. by rewrite ofStored_toStored.
Qed.

Lemma read_write_ne {T U} `{Storable T} `{Storable U} (key key' : string)
    (initialValue : T) (initialValue' : U) (f : T → T) (s : Storage) :
  key ≠ key' →
  LocalStorage.read key' initialValue'
    (LocalStorage.write key initialValue f s)
  = LocalStorage.read key' initialValue' s.
Proof.
  intros Hne. unfold LocalStorage.read, LocalStorage.write.
  by rewrite lookup_insert_ne.
Qed.

Lemma spread_lookup (prev updates : JsObject) (key : string) :
  spread prev updates !! key =
  match updates !! key with
  | Some v => Some v
  | None => prev !! key
  end.
Proof.
  unfold spread. rewrite lookup_union.
  destruct (updates !! key), (prev !! key); reflexivity.
Qed.

(** ** What the effects leave alone *)

Ltac unfold_m :=
  unfold mbind, M_bind, mret, M_ret, modify, try_catch, try_finally.

Lemma speak_frame (text : string) (st : AppState) :
  ∃ said, speak text st = Returns tt (set_spoken said st).
Proof.
  unfold speak. destruct (voiceEnabled st); eauto.
  exists (spoken st). by destruct st.
Qed.

Lemma weatherEffect_frame (prev st : AppState) :
  let st' := weatherEffect prev st in
  storage st' = storage st ∧ itinerary st' = itinerary st
  ∧ error st' = error st ∧ now st' = now st
  ∧ errorTimer st' = errorTimer st.
Proof. unfold weatherEffect. case_decide; cbn; auto. Qed.

Lemma errorEffect_frame (prev st : AppState) :
  let st' := errorEffect prev st in
  storage st' = storage st ∧ itinerary st' = itinerary st
  ∧ error st' = error st ∧ now st' = now st.
Proof.
  unfold errorEffect, errorEffect_body. case_decide; cbn; auto.
  destruct (truthy (error st)); cbn; auto.
Qed.

Lemma viewEffect_frame (prev st : AppState) :
  let st' := viewEffect prev st in
  storage st' = storage st ∧ itinerary st' = itinerary st
  ∧ error st' = error st ∧ now st' = now st
  ∧ errorTimer st' = errorTimer st.
Proof.
  unfold viewEffect, viewEffect_body. case_decide; [cbn; auto |].
  destruct (voiceEnabled st); [| cbn; auto].
  destruct (speak_frame ("Switched to " +:+ viewNames (currentView st) +:+ " view") st)
    as [said ->]. cbn. auto.
Qed.

Lemma effects_frame (prev st : AppState) :
  let st' := effects prev st in
  storage st' = storage st ∧ itinerary st' = itinerary st
  ∧ error st' = error st ∧ now st' = now st.
Proof.
  unfold effects.
  destruct (viewEffect_frame prev (errorEffect prev (weatherEffect prev st)))
    as (-> & -> & -> & -> & _).
  destruct (errorEffect_frame prev (weatherEffect prev st))
    as (-> & -> & -> & ->).
  destruct (weatherEffect_frame prev st) as (-> & -> & -> & -> & _).
  auto.
Qed.

Lemma effects_errorTimer (prev st : AppState) :
  errorTimer (effects prev st) =
  if decide (error prev = error st) then errorTimer st
  else if truthy (error st) then Some (now st + 5000)%N else None.
Proof.
  unfold effects.
  destruct (viewEffect_frame prev (errorEffect prev (weatherEffect prev st)))
    as (_ & _ & _ & _ & ->).
  destruct (weatherEffect_frame prev st) as (_ & _ & He & Hn & Ht).
  unfold errorEffect, errorEffect_body. rewrite He.
  case_decide; [assumption |]. cbn. rewrite He.
  destruct (truthy (error st)); cbn; congruence.
Qed.

(** ** The handlers, one by one *)

Lemma handleRegionChange_runs (region : string) (st : AppState) :
  handleRegionChange region st =
  Returns tt
    (let st' := set_storage
                  (LocalStorage.write "selectedRegion" "" (λ _, region)) st in
     if bool_decide (region ≠ selectedRegion st)
     then set_itinerary Itinerary.clearItinerary st' else st').
Proof.
  unfold handleRegionChange, setSelectedRegion, clearItinerary. unfold_m.
  case_bool_decide; reflexivity.
Qed.

Lemma handleOptimizeItinerary_throwing (st : AppState) (err : Exn) :
  optimizeHook (itinerary st) = inl err →
  handleOptimizeItinerary st =
  Returns tt
    (set_console (console st ++ [("Optimization error:", err)])
       (set_error (Some "Failed to optimize itinerary. Please try again.") st)).
Proof.
  intros Hthrow.
  unfold handleOptimizeItinerary, optimizeItinerary, setError, console_error.
  unfold_m. rewrite Hthrow. reflexivity.
Qed.

Lemma handleOptimizeItinerary_returning (st : AppState) (l : list POI) :
  optimizeHook (itinerary st) = inr l →
  ∃ said, handleOptimizeItinerary st =
          Returns tt (set_spoken said (set_itinerary (λ _, l) st)).
Proof.
  intros Hret. unfold handleOptimizeItinerary, optimizeItinerary. unfold_m.
  rewrite Hret.
  destruct (speak_frame
    "Itinerary optimized for best visiting times and travel efficiency."
    (set_itinerary (λ _, l) st)) as [said ->]. eauto.
Qed.

Lemma applyAISuggestion_runs (suggestion : Suggestion) (st : AppState) :
  ∃ said, applyAISuggestion suggestion st = Returns tt (set_spoken said st).
Proof. apply speak_frame. Qed.

Lemma handleUserPreferencesUpdate_runs (updates : JsObject) (st : AppState) :
  handleUserPreferencesUpdate updates st =
  Returns tt
    (set_storage
       (LocalStorage.write "userPreferences" DEFAULT_USER_PREFERENCES
          (λ prev, spread prev updates)) st).
Proof. reflexivity. Qed.

(** The [try]/[catch]/[finally] of the two [async] functions, whose [try]
    blocks cannot throw here. *)
Lemma loadWeatherData_resume_runs (st : AppState) :
  loadWeatherData_resume st =
  Returns tt (set_isLoading false (set_weather (Some mockWeather) st)).
Proof. reflexivity. Qed.

Lemma downloadOfflineContent_resume_runs (st : AppState) :
  ∃ said, downloadOfflineContent_resume st =
  Returns tt
    (set_isLoading false
       (set_spoken said
          (set_storage (LocalStorage.write "offlineMode" false (λ _, true)) st))).
Proof.
  unfold downloadOfflineContent_resume, setOfflineMode, setIsLoading. unfold_m.
  destruct (speak_frame
    "Offline content downloaded. Maps and site information available without internet."
    (set_storage (LocalStorage.write "offlineMode" false (λ _, true)) st))
    as [said ->]. eauto.
Qed.

Lemma raised_truthy (v : option string) : raised v → truthy v = true.
Proof. intros [-> | [-> | ->]]; reflexivity. Qed.

(** Every handler but the preference update leaves the preferences alone, no
    handler moves the clock or the timer, and the only values a handler puts
    into the error slot are the three messages of the source. *)
Lemma handler_frame (a : Action) (st : AppState) :
  let st' := state_of (handler a st) in
  now st' = now st ∧ errorTimer st' = errorTimer st
  ∧ (error st' = error st ∨ raised (error st'))
  ∧ userPreferences st' =
    match a with
    | UserPreferencesUpdate updates => spread (userPreferences st) updates
    | _ => userPreferences st
    end.
Proof.
  destruct a; cbn [handler].
  - rewrite handleRegionChange_runs. cbn. case_bool_decide; cbn;
      split_and!; auto; unfold userPreferences; cbn; by rewrite read_write_ne.
  - cbn. auto.
  - cbn. split_and!; auto. unfold userPreferences; cbn. by rewrite read_write_ne.
  - cbn. split_and!; auto. unfold userPreferences; cbn. by rewrite read_write_ne.
  - cbn. split_and!; auto. unfold userPreferences; cbn. by rewrite read_write_ne.
  - cbn. split_and!; auto. unfold userPreferences; cbn. by rewrite read_write_ne.
  - rewrite handleUserPreferencesUpdate_runs. cbn. split_and!; auto.
    unfold userPreferences. cbn. by rewrite read_write.
  - cbn. auto.
  - cbn. auto.
  - cbn. auto.
  - destruct (optimizeHook (itinerary st)) as [err | l] eqn:Hopt.
    + rewrite (handleOptimizeItinerary_throwing _ _ Hopt). cbn.
      split_and!; auto. right. left. reflexivity.
    + destruct (handleOptimizeItinerary_returning _ _ Hopt) as [said ->].
      cbn. auto.
  - cbn. auto.
  - destruct (applyAISuggestion_runs suggestion st) as [said ->]. cbn. auto.
  - destruct (speak_frame text st) as [said ->]. cbn. auto.
  - unfold resume. destruct (list_find _ _) as [[i ?] |]; [| cbn; auto].
    destruct k.
    + rewrite loadWeatherData_resume_runs. cbn. auto.
    + destruct (downloadOfflineContent_resume_runs
                  (set_suspended (delete i (suspended st)) st)) as [said ->].
      cbn. split_and!; auto. unfold userPreferences; cbn.
      by rewrite read_write_ne.
  - cbn. auto.
Qed.

Lemma step_itinerary (a : Action) (st : AppState) :
  is_elapse a = false →
  itinerary (step a st) = itinerary (state_of (handler a st)).
Proof.
  intros Ha. destruct a; try discriminate Ha; cbn [step];
    match goal with
    | |- context [effects st ?x] =>
        by destruct (effects_frame st x) as (_ & -> & _)
    end.
Qed.

Lemma step_userPreferences (a : Action) (st : AppState) :
  is_elapse a = false →
  userPreferences (step a st) = userPreferences (state_of (handler a st)).
Proof.
  intros Ha. unfold userPreferences.
  destruct a; try discriminate Ha; cbn [step];
    match goal with
    | |- context [effects st ?x] => by destruct (effects_frame st x) as (-> & _)
    end.
Qed.

Lemma elapse_frame (ms : N) (st : AppState) :
  storage (elapse ms st) = storage st
  ∧ itinerary (elapse ms st) = itinerary st.
Proof.
  unfold elapse. destruct (errorTimer st) as [deadline |]; [| cbn; auto].
  destruct (_ <=? _)%N; cbn; [| auto].
  set (fired := set_errorTimer None _).
  destruct (effects_frame fired (set_error None fired)) as (-> & -> & _).
  auto.
Qed.

(** ** The region change *)

(** C4.  Whatever the itinerary holds, when the region handed to the handler
    differs from the selected one, the handler returns, and the itinerary is
    empty when it has returned and still empty after the effects that
    follow. *)
Theorem region_change_empties_itinerary (st : AppState) (region : string) :
  region ≠ selectedRegion st →
  threw (handleRegionChange region st) = false
  ∧ itinerary (state_of (handleRegionChange region st)) = []
  ∧ itinerary (step (RegionChange region) st) = []
  ∧ selectedRegion (step (RegionChange region) st) = region.
Proof.
  intros Hne.
  assert (Hitin : itinerary (state_of (handleRegionChange region st)) = []).
  { rewrite handleRegionChange_runs. cbn.
    by rewrite bool_decide_eq_true_2. }
  split_and!.
  - by rewrite handleRegionChange_runs.
  - exact Hitin.
  - by rewrite step_itinerary.
  - cbn [step handler]. unfold selectedRegion at 1.
    destruct (effects_frame st (state_of (handleRegionChange region st)))
      as (-> & _).
    rewrite handleRegionChange_runs. cbn.
    case_bool_decide; cbn; by rewrite read_write.
Qed.

(** C10.  When the region handed to the handler is the selected one, the
    itinerary is what it was, when the handler has returned and after the
    effects that follow. *)
Theorem same_region_keeps_itinerary (st : AppState) :
  itinerary (state_of (handleRegionChange (selectedRegion st) st))
  = itinerary st
  ∧ itinerary (step (RegionChange (selectedRegion st)) st) = itinerary st.
Proof.
  assert (Hitin : itinerary (state_of
                    (handleRegionChange (selectedRegion st) st))
                  = itinerary st).
  { rewrite handleRegionChange_runs. cbn.
    by rewrite bool_decide_eq_false_2; [| intros Hne; apply Hne]. }
  split; [exact Hitin | by rewrite step_itinerary].
Qed.

(** ** The preferences *)

(** C6.  The one event that changes the preferences is the preference
    update, and it merges: a key of the update has the value of the update
    afterwards, whatever it was, and a key the update does not have keeps its
    value. *)
Theorem preferences_change_by_merge_only (a : Action) (st : AppState) :
  userPreferences (step a st) =
  match a with
  | UserPreferencesUpdate updates => spread (userPreferences st) updates
  | _ => userPreferences st
  end
  ∧ ∀ (updates : JsObject) (key : string),
      userPreferences (step (UserPreferencesUpdate updates) st) !! key =
      match updates !! key with
      | Some v => Some v
      | None => userPreferences st !! key
      end.
Proof.
  assert (Hall : ∀ a, userPreferences (step a st) =
    match a with
    | UserPreferencesUpdate updates => spread (userPreferences st) updates
    | _ => userPreferences st
    end).
  { intros b. destruct (is_elapse b) eqn:Hb.
    - destruct b; try discriminate Hb. cbn [step]. unfold userPreferences.
      by destruct (elapse_frame ms st) as [-> _].
    - rewrite step_userPreferences by assumption.
      by destruct (handler_frame b st) as (_ & _ & _ & ->). }
  split; [apply Hall |].
  intros updates key. rewrite Hall. apply spread_lookup.
Qed.

(** C7.  With nothing in the storage, each of the seven persisted cells
    reads as the default App.tsx gives it; and a cell that has just been
    written reads as the value written, whatever the key, the type and the
    storage. *)
Theorem defaults_and_write_then_read (persisted : Storage) (today : string)
    (t0 : N) :
  let st := mount ∅ today t0 in
  (selectedRegion st = "" ∧ startingPoint st = ""
   ∧ currentView st = planning ∧ privacyMode st = false
   ∧ offlineMode st = false ∧ voiceEnabled st = false
   ∧ userPreferences st = DEFAULT_USER_PREFERENCES
   ∧ userPreferences st !! "interests" = Some (JStrings [])
   ∧ userPreferences st !! "mobilityLevel" = Some (JString "moderate")
   ∧ userPreferences st !! "timePreference" = Some (JString "flexible"))
  ∧ (∀ T (HT : Storable T) (key : string) (initialValue v : T),
       LocalStorage.read key initialValue
         (LocalStorage.write key initialValue (λ _, v) persisted) = v)
  ∧ ∀ (s : AppState) (region place : string) (view : ViewType)
      (privacy offline voice : bool) (prefs : JsObject),
      selectedRegion (state_of (setSelectedRegion region s)) = region
      ∧ startingPoint (state_of (setStartingPoint place s)) = place
      ∧ currentView (state_of (setCurrentView view s)) = view
      ∧ privacyMode (state_of (setPrivacyMode privacy s)) = privacy
      ∧ offlineMode (state_of (setOfflineMode offline s)) = offline
      ∧ voiceEnabled (state_of (setVoiceEnabled voice s)) = voice
      ∧ userPreferences (state_of (setUserPreferences (λ _, prefs) s)) = prefs.
Proof.
  split_and!; try reflexivity.
  - intros T HT key initialValue v. by rewrite read_write.
  - intros. unfold selectedRegion, startingPoint, currentView, privacyMode,
      offlineMode, voiceEnabled, userPreferences. cbn.
    by rewrite !read_write.
Qed.

(** ** Suggestions *)

(** The engine is not handed the itinerary: its output is the same whatever
    the itinerary holds. *)
Lemma aiSuggestions_ignore_itinerary (f : list POI → list POI)
    (st : AppState) :
  aiSuggestions (set_itinerary f st) = aiSuggestions st.
Proof. reflexivity. Qed.

(** Applying a suggestion announces it and does nothing else. *)
Lemma applyAISuggestion_announces (suggestion : Suggestion) (st : AppState) :
  state_of (applyAISuggestion suggestion st) =
  (if voiceEnabled st
   then set_spoken (spoken st ++
          ["Applied AI suggestion: " +:+ suggestion_title suggestion]) st
   else st)
  ∧ itinerary (step (ApplyAISuggestion suggestion) st) = itinerary st.
Proof.
  split.
  - unfold applyAISuggestion, speak. by destruct (voiceEnabled st).
  - rewrite step_itinerary by reflexivity. cbn [handler].
    by destruct (applyAISuggestion_runs suggestion st) as [said ->].
Qed.

(** ** The error slot and its timer *)

Lemma step_error (a : Action) (st : AppState) :
  is_elapse a = false →
  error (step a st) = error (state_of (handler a st))
  ∧ now (step a st) = now st
  ∧ errorTimer (step a st) =
    if decide (error st = error (state_of (handler a st)))
    then errorTimer st
    else Some (now st + 5000)%N.
Proof.
  intros Ha.
  assert (Hstep : step a st = effects st (state_of (handler a st)))
    by (destruct a; try discriminate Ha; reflexivity).
  rewrite Hstep, effects_errorTimer.
  destruct (effects_frame st (state_of (handler a st))) as (_ & _ & -> & ->).
  destruct (handler_frame a st) as (-> & -> & Herr & _).
  split_and!; try reflexivity.
  case_decide as Hsame; [reflexivity |].
  destruct Herr as [Heq | Hraised]; [congruence |].
  by rewrite raised_truthy.
Qed.

Lemma elapse_now (ms : N) (st : AppState) :
  now (elapse ms st) = (now st + ms)%N.
Proof.
  unfold elapse. destruct (errorTimer st); [| reflexivity].
  by destruct (_ <=? _)%N.
Qed.

Lemma elapse_pending (ms : N) (st : AppState) (deadline : N) :
  errorTimer st = Some deadline → (now st + ms < deadline)%N →
  error (elapse ms st) = error st ∧ errorTimer (elapse ms st) = Some deadline.
Proof.
  intros Ht Hlt. unfold elapse. rewrite Ht.
  destruct (N.leb_spec deadline (now st + ms)); [lia | by cbn].
Qed.

Lemma elapse_fires (ms : N) (st : AppState) (deadline : N) :
  errorTimer st = Some deadline → (deadline ≤ now st + ms)%N →
  error (elapse ms st) = None ∧ errorTimer (elapse ms st) = None.
Proof.
  intros Ht Hle. unfold elapse. rewrite Ht.
  destruct (N.leb_spec deadline (now st + ms)); [| lia].
  set (fired := set_errorTimer None _). cbn [set_now error errorTimer].
  rewrite effects_errorTimer.
  destruct (effects_frame fired (state_of (setError None fired)))
    as (_ & _ & -> & _).
  cbn. split; [reflexivity |]. by case_decide.
Qed.

Lemma elapse_idle (ms : N) (st : AppState) :
  errorTimer st = None →
  error (elapse ms st) = error st ∧ errorTimer (elapse ms st) = None.
Proof. intros Ht. unfold elapse. rewrite Ht. by cbn. Qed.

Lemma mount_timer_inv (persisted : Storage) (today : string) (t0 : N) :
  timer_inv (mount persisted today t0).
Proof.
  unfold mount, timer_inv, viewEffect_body.
  set (st := errorEffect_body _).
  assert (Hst : error st = None ∧ errorTimer st = None) by (by cbn).
  destruct Hst as [He Ht].
  destruct (voiceEnabled st); [| cbn; by rewrite He].
  destruct (speak_frame ("Switched to " +:+ viewNames (currentView st) +:+ " view") st)
    as [said ->].
  cbn. by rewrite He.
Qed.

Lemma step_timer_inv (a : Action) (st : AppState) :
  timer_inv st → timer_inv (step a st).
Proof.
  unfold timer_inv. intros Hinv. destruct (is_elapse a) eqn:Ha.
  - destruct a; try discriminate Ha. cbn [step].
    destruct (error st) as [m |] eqn:He.
    + destruct Hinv as (deadline & Ht & Hd).
      destruct (N.le_gt_cases deadline (now st + ms)) as [Hle | Hgt].
      * destruct (elapse_fires ms st deadline Ht Hle) as [-> ->]. reflexivity.
      * destruct (elapse_pending ms st deadline Ht) as [-> ->]; [lia |].
        rewrite He, elapse_now. exists deadline. split; [reflexivity | lia].
    + destruct (elapse_idle ms st Hinv) as [-> ->]. by rewrite He.
  - destruct (step_error a st Ha) as (-> & -> & ->).
    case_decide as Hsame.
    + by rewrite <- Hsame.
    + destruct (handler_frame a st) as (_ & _ & [Heq | Hr] & _);
        [congruence |].
      destruct Hr as [-> | [-> | ->]]; eexists; (split; [reflexivity | lia]).
Qed.

Lemma reachable_timer_inv (st : AppState) : reachable st → timer_inv st.
Proof.
  induction 1; [apply mount_timer_inv | by apply step_timer_inv].
Qed.

(** A message of a reachable state is gone once 5000 ms have passed. *)
Lemma shown_message_expires (st : AppState) (ms : N) :
  reachable st → (5000 ≤ ms)%N → error (step (Elapse ms) st) = None.
Proof.
  intros Hr Hms. apply reachable_timer_inv in Hr. unfold timer_inv in Hr.
  cbn [step]. destruct (error st) as [m |] eqn:He.
  - destruct Hr as (deadline & Ht & Hd).
    apply (elapse_fires ms st deadline Ht). lia.
  - destruct (elapse_idle ms st Hr) as [-> _]. exact He.
Qed.

Lemma quiet_step (m : string) (deadline : N) (a : Action) (st : AppState) :
  showing m deadline st ∨ cleared deadline st →
  quiet a st = true →
  showing m deadline (step a st) ∨ cleared deadline (step a st).
Proof.
  intros Hphase Hq. apply bool_decide_eq_true in Hq.
  destruct (is_elapse a) eqn:Ha.
  - destruct a; try discriminate Ha. cbn [step].
    pose proof (elapse_now ms st) as Hnow.
    destruct Hphase as [(He & Ht & Hn) | (He & Ht & Hn)].
    + destruct (N.le_gt_cases deadline (now st + ms)) as [Hle | Hgt].
      * right. destruct (elapse_fires ms st deadline Ht Hle) as [He' Ht'].
        unfold cleared. rewrite He', Ht', Hnow. auto.
      * left. destruct (elapse_pending ms st deadline Ht Hgt) as [He' Ht'].
        unfold showing. rewrite He', Ht', Hnow. auto.
    + right. destruct (elapse_idle ms st Ht) as [He' Ht'].
      unfold cleared. rewrite He', Ht', Hnow. split_and!; auto. lia.
  - destruct (step_error a st Ha) as (He' & Hnow & Ht').
    rewrite decide_True in Ht' by done.
    unfold showing, cleared. rewrite He', Hnow, Ht', Hq. exact Hphase.
Qed.

Lemma quiet_run_phases (m : string) (deadline : N) (trace : list Action)
    (st : AppState) :
  showing m deadline st ∨ cleared deadline st →
  quiet_run trace st = true →
  showing m deadline (run trace st) ∨ cleared deadline (run trace st).
Proof.
  revert st. induction trace as [| a trace IH]; intros st Hphase Hq;
    [exact Hphase |].
  cbn in Hq. apply andb_true_iff in Hq as [Hqa Hq].
  cbn. apply IH; [| exact Hq]. by apply quiet_step.
Qed.

(** ** The failing optimisation *)

(** C5.  When [optimizeItinerary] throws, [handleOptimizeItinerary] returns:
    the exception stops at its [catch].  The error slot then holds the
    message of the handler, the exception is on the console, and the rest of
    the state, the itinerary in it, is what it was before the call; the
    itinerary is also unchanged after the effects that follow.  The message
    is transient: in a state the component can reach it is gone once 5000 ms
    have passed without another event. *)
Theorem optimize_failure_is_caught (st : AppState) (err : Exn) :
  optimizeHook (itinerary st) = inl err →
  threw (handleOptimizeItinerary st) = false
  ∧ state_of (handleOptimizeItinerary st)
    = set_console (console st ++ [("Optimization error:", err)])
        (set_error (Some "Failed to optimize itinerary. Please try again.") st)
  ∧ error (step OptimizeItinerary st)
    = Some "Failed to optimize itinerary. Please try again."
  ∧ itinerary (state_of (handleOptimizeItinerary st)) = itinerary st
  ∧ itinerary (step OptimizeItinerary st) = itinerary st
  ∧ (reachable st →
     error (step (Elapse 5000) (step OptimizeItinerary st)) = None).
Proof.
  intros Hthrow. pose proof (handleOptimizeItinerary_throwing _ _ Hthrow) as Hrun.
  split_and!.
  - by rewrite Hrun.
  - by rewrite Hrun.
  - cbn [step handler].
    destruct (effects_frame st (state_of (handleOptimizeItinerary st)))
      as (_ & _ & -> & _).
    by rewrite Hrun.
  - by rewrite Hrun.
  - rewrite step_itinerary by reflexivity. cbn [handler]. by rewrite Hrun.
  - intros Hreach. apply shown_message_expires; [| lia].
    by constructor.
Qed.

(** ** The lifetime of a message *)

(** C9, as the code has it.  When an event changes the error slot to a
    message, the slot shows that message for 5000 ms from that event and is
    null from then on, for as long as the events that follow leave the slot
    as it is; raising the message the slot already shows is such an event,
    it leaves the running timer in place.  A later error with another message
    is a change of its own: [setError] puts whatever it is given into the
    one slot, and the 5000 ms start again. *)
Theorem error_slot_clears_after_change
    (st : AppState) (a : Action) (m : string) (trace : list Action) :
  is_elapse a = false →
  error st ≠ Some m →
  error (step a st) = Some m →
  quiet_run trace (step a st) = true →
  let st' := run trace (step a st) in
  ((now st' < now st + 5000)%N → error st' = Some m)
  ∧ ((now st + 5000 ≤ now st')%N → error st' = None)
  ∧ (∀ b, is_elapse b = false → error (step b (step a st)) = Some m →
          errorTimer (step b (step a st)) = Some (now st + 5000)%N)
  ∧ ∀ v s, error (state_of (setError v s)) = v.
Proof.
  intros Ha Hfresh Hset Hquiet st'.
  destruct (step_error a st Ha) as (He & Hnow & Ht).
  rewrite decide_False in Ht by congruence.
  assert (Hphase : showing m (now st + 5000) st'
                   ∨ cleared (now st + 5000) st').
  { apply quiet_run_phases; [| exact Hquiet].
    left. unfold showing. rewrite Hnow. split_and!; [done | done | lia]. }
  split_and!.
  - intros Hlt. destruct Hphase as [(Hm & _) | (_ & _ & Hge)]; [done | lia].
  - intros Hge. destruct Hphase as [(_ & _ & Hlt) | (Hn & _)]; [lia | done].
  - intros b Hb Hsame. destruct (step_error b (step a st) Hb) as (Heb & _ & ->).
    rewrite decide_True by congruence. exact Ht.
  - reflexivity.
Qed.

(** ** Event by event *)

Lemma speak_runs (text : string) (st : AppState) :
  speak text st =
  Returns tt (if voiceEnabled st then set_spoken (spoken st ++ [text]) st
              else st).
Proof. reflexivity. Qed.

Lemma handleOptimizeItinerary_success (st : AppState) (l : list POI) :
  optimizeHook (itinerary st) = inr l →
  handleOptimizeItinerary st =
  Returns tt
    (let st' := set_itinerary (λ _, l) st in
     if voiceEnabled st
     then set_spoken
            (spoken st ++
             ["Itinerary optimized for best visiting times and travel efficiency."])
            st'
     else st').
Proof.
  intros Hret. unfold handleOptimizeItinerary, optimizeItinerary. unfold_m.
  rewrite Hret. reflexivity.
Qed.

Lemma downloadOfflineContent_resume_state (st : AppState) :
  downloadOfflineContent_resume st =
  Returns tt
    (let st' := set_storage
                  (LocalStorage.write "offlineMode" false (λ _, true)) st in
     set_isLoading false
       (if voiceEnabled st
        then set_spoken
               (spoken st ++
                ["Offline content downloaded. Maps and site information available without internet."])
               st'
        else st')).
Proof.
  unfold downloadOfflineContent_resume, setOfflineMode, setIsLoading. unfold_m.
  rewrite speak_runs.
  replace (voiceEnabled (set_storage _ st)) with (voiceEnabled st)
    by (unfold voiceEnabled; cbn; by rewrite read_write_ne).
  by destruct (voiceEnabled st).
Qed.

Lemma suspended_found (k : Suspended) (l : list Suspended) :
  k ∈ l → ∃ i, list_find (λ k', k' = k) l = Some (i, k).
Proof.
  intros Hin. destruct (list_find_elem_of (λ k', k' = k) l k Hin eq_refl)
    as [[i k'] Hfind].
  exists i. pose proof Hfind as Hk.
  apply list_find_Some in Hk as (_ & -> & _). exact Hfind.
Qed.

Lemma suspended_not_found (k : Suspended) (l : list Suspended) :
  k ∉ l → list_find (λ k', k' = k) l = None.
Proof.
  intros Hout. apply list_find_None, Forall_forall.
  intros k' Hin ->. contradiction.
Qed.

(** What the effects do to the fields the handlers leave to them. *)
Lemma effects_loading (prev st : AppState) :
  let st' := effects prev st in
  weather st' = weather st ∧ console st' = console st
  ∧ selectedDate st' = selectedDate st
  ∧ (isLoading st', suspended st') =
    if decide (selectedRegion prev = selectedRegion st)
    then (isLoading st, suspended st)
    else (true, suspended st ++ [AwaitWeather]).
Proof.
  unfold effects, viewEffect, viewEffect_body, errorEffect, errorEffect_body,
    weatherEffect, weatherEffect_body.
  repeat (case_decide || case_match); cbn; try rewrite speak_runs; cbn;
    repeat case_match; cbn; auto.
Qed.

Lemma viewEffect_spoken (prev st : AppState) :
  spoken (viewEffect prev st) =
  if decide (currentView prev = currentView st
             ∧ voiceEnabled prev = voiceEnabled st)
  then spoken st
  else if voiceEnabled st
       then spoken st ++ [viewAnnouncement (currentView st)]
       else spoken st.
Proof.
  unfold viewEffect, viewEffect_body. case_decide; [reflexivity |].
  destruct (voiceEnabled st) eqn:Hv; [| reflexivity].
  rewrite speak_runs, Hv. reflexivity.
Qed.

Lemma effects_spoken (prev st : AppState) :
  spoken (effects prev st) =
  if decide (currentView prev = currentView st
             ∧ voiceEnabled prev = voiceEnabled st)
  then spoken st
  else if voiceEnabled st
       then spoken st ++ [viewAnnouncement (currentView st)]
       else spoken st.
Proof.
  unfold effects. rewrite viewEffect_spoken.
  set (st1 := errorEffect prev (weatherEffect prev st)).
  assert (Hst1 : storage st1 = storage st ∧ spoken st1 = spoken st).
  { unfold st1, errorEffect, errorEffect_body, weatherEffect,
      weatherEffect_body.
    repeat (case_decide || case_match); cbn; auto. }
  destruct Hst1 as [Hsto Hsp].
  unfold currentView, voiceEnabled. by rewrite !Hsto, Hsp.
Qed.

(** Every handler returns, and the state it returns in. *)
Lemma handler_state (a : Action) (st : AppState) :
  handler a st =
  Returns tt
    match a with
    | RegionChange region =>
        let st' := set_storage
                     (LocalStorage.write "selectedRegion" "" (λ _, region)) st in
        if bool_decide (region ≠ selectedRegion st)
        then set_itinerary Itinerary.clearItinerary st' else st'
    | SetSelectedDate date => set_selectedDate date st
    | SetStartingPoint place =>
        set_storage (LocalStorage.write "startingPoint" "" (λ _, place)) st
    | SetCurrentView view =>
        set_storage (LocalStorage.write "currentView" planning (λ _, view)) st
    | SetPrivacyMode on =>
        set_storage (LocalStorage.write "privacyMode" false (λ _, on)) st
    | SetVoiceEnabled on =>
        set_storage (LocalStorage.write "voiceEnabled" false (λ _, on)) st
    | UserPreferencesUpdate updates =>
        set_storage
          (LocalStorage.write "userPreferences" DEFAULT_USER_PREFERENCES
             (λ prev, spread prev updates)) st
    | DownloadOfflineContent =>
        set_suspended (suspended st ++ [AwaitDownload]) (set_isLoading true st)
    | AddPOI poi => set_itinerary (Itinerary.addPOI poi) st
    | RemovePOI id => set_itinerary (Itinerary.removePOI id) st
    | OptimizeItinerary =>
        match optimizeHook (itinerary st) with
        | inl err =>
            set_console (console st ++ [("Optimization error:", err)])
              (set_error
                 (Some "Failed to optimize itinerary. Please try again.") st)
        | inr l =>
            let st' := set_itinerary (λ _, l) st in
            if voiceEnabled st
            then set_spoken
                   (spoken st ++
                    ["Itinerary optimized for best visiting times and travel efficiency."])
                   st'
            else st'
        end
    | ClearItinerary => set_itinerary Itinerary.clearItinerary st
    | ApplyAISuggestion suggestion =>
        if voiceEnabled st
        then set_spoken
               (spoken st ++
                ["Applied AI suggestion: " +:+ suggestion_title suggestion]) st
        else st
    | Speak text =>
        if voiceEnabled st then set_spoken (spoken st ++ [text]) st else st
    | Resolve k =>
        match list_find (λ k', k' = k) (suspended st) with
        | Some (i, _) =>
            let st' := set_suspended (delete i (suspended st)) st in
            match k with
            | AwaitWeather =>
                set_isLoading false (set_weather (Some mockWeather) st')
            | AwaitDownload =>
                let st'' :=
                  set_storage
                    (LocalStorage.write "offlineMode" false (λ _, true)) st' in
                set_isLoading false
                  (if voiceEnabled st
                   then set_spoken
                          (spoken st ++
                           ["Offline content downloaded. Maps and site information available without internet."])
                          st''
                   else st'')
            end
        | None => st
        end
    | Elapse _ => st
    end.
Proof.
  destruct a; cbn [handler]; try reflexivity.
  - apply handleRegionChange_runs.
  - destruct (optimizeHook (itinerary st)) as [err | l] eqn:Hopt.
    + by apply handleOptimizeItinerary_throwing.
    + by apply handleOptimizeItinerary_success.
  - unfold resume. destruct (list_find _ _) as [[i ?] |]; [| reflexivity].
    destruct k; [reflexivity |].
    rewrite downloadOfflineContent_resume_state. reflexivity.
Qed.

Lemma step_effects (a : Action) (st : AppState) :
  is_elapse a = false → step a st = effects st (state_of (handler a st)).
Proof. intros Ha. by destruct a. Qed.

(** The selected region after a handler. *)
Lemma handler_selectedRegion (a : Action) (st : AppState) :
  selectedRegion (state_of (handler a st)) =
  match a with
  | RegionChange region => region
  | _ => selectedRegion st
  end.
Proof.
  rewrite handler_state. unfold selectedRegion.
  destruct a; cbn; repeat case_match; cbn;
    rewrite ?read_write, ?read_write_ne by done; reflexivity.
Qed.

Lemma step_storage (a : Action) (st : AppState) :
  storage (step a st) = storage (state_of (handler a st)).
Proof.
  destruct (is_elapse a) eqn:Ha.
  - destruct a; try discriminate Ha. cbn [step handler].
    by destruct (elapse_frame ms st) as [-> _].
  - rewrite step_effects by assumption.
    by destruct (effects_frame st (state_of (handler a st))) as (-> & _).
Qed.

(** X1.  The itinerary after an event: adding, removing, clearing and a
    successful optimisation change it as the hook says, a change to another
    region empties it, and every other event, a failed optimisation and the
    passing of time among them, leaves it as it is. *)
Theorem itinerary_changes_by_event (a : Action) (st : AppState) :
  itinerary (step a st) =
  match a with
  | RegionChange region =>
      if bool_decide (region ≠ selectedRegion st) then [] else itinerary st
  | AddPOI poi => Itinerary.addPOI poi (itinerary st)
  | RemovePOI id => Itinerary.removePOI id (itinerary st)
  | OptimizeItinerary =>
      match optimizeHook (itinerary st) with
      | inl _ => itinerary st
      | inr reordered => reordered
      end
  | ClearItinerary => []
  | _ => itinerary st
  end.
Proof.
  destruct (is_elapse a) eqn:Ha.
  - destruct a; try discriminate Ha. cbn [step].
    by destruct (elapse_frame ms st) as [_ ->].
  - rewrite step_itinerary, handler_state by assumption.
    destruct a; cbn; repeat case_match; reflexivity.
Qed.

(** X2.  The six persisted settings after an event: each of the five
    setters handed to the panels changes its own setting and no other, a
    finished download turns the offline mode on, and no other event changes
    any of them. *)
Theorem settings_change_by_event (a : Action) (st : AppState) :
  settings_of (step a st) =
  match a with
  | RegionChange region =>
      (region, startingPoint st, currentView st, privacyMode st,
       offlineMode st, voiceEnabled st)
  | SetStartingPoint place =>
      (selectedRegion st, place, currentView st, privacyMode st,
       offlineMode st, voiceEnabled st)
  | SetCurrentView view =>
      (selectedRegion st, startingPoint st, view, privacyMode st,
       offlineMode st, voiceEnabled st)
  | SetPrivacyMode on =>
      (selectedRegion st, startingPoint st, currentView st, on,
       offlineMode st, voiceEnabled st)
  | SetVoiceEnabled on =>
      (selectedRegion st, startingPoint st, currentView st, privacyMode st,
       offlineMode st, on)
  | Resolve AwaitDownload =>
      (selectedRegion st, startingPoint st, currentView st, privacyMode st,
       if bool_decide (AwaitDownload ∈ suspended st) then true
       else offlineMode st,
       voiceEnabled st)
  | _ => settings_of st
  end.
Proof.
  unfold settings_of, selectedRegion, startingPoint, currentView, privacyMode,
    offlineMode, voiceEnabled.
  rewrite step_storage, handler_state.
  destruct a as [| | | | | | | | | | | | | | k |]; cbn;
    rewrite ?read_write, ?read_write_ne by done; try reflexivity.
  - case_bool_decide; cbn; by rewrite ?read_write, ?read_write_ne by done.
  - by repeat case_match.
  - by repeat case_match.
  - by repeat case_match.
  - destruct k.
    + by destruct (list_find _ _) as [[i ?] |].
    + case_bool_decide as Hin.
      * destruct (suspended_found _ _ Hin) as [i ->]. cbn.
        destruct (voiceEnabled st); cbn;
          by rewrite ?read_write, ?read_write_ne by done.
      * by rewrite (suspended_not_found _ _ Hin).
Qed.

(** X3.  The error slot after an event: a failed optimisation puts its
    message there, the passing of time empties the slot when the deadline of
    the timer falls within it, and no other event, the weather load and the
    download among them, changes the slot. *)
Theorem error_changes_by_event (a : Action) (st : AppState) :
  error (step a st) =
  match a with
  | OptimizeItinerary =>
      match optimizeHook (itinerary st) with
      | inl _ => Some "Failed to optimize itinerary. Please try again."
      | inr _ => error st
      end
  | Elapse ms =>
      match errorTimer st with
      | Some deadline =>
          if (deadline <=? now st + ms)%N then None else error st
      | None => error st
      end
  | _ => error st
  end.
Proof.
  destruct (is_elapse a) eqn:Ha.
  - destruct a; try discriminate Ha. cbn [step].
    destruct (errorTimer st) as [deadline |] eqn:Ht.
    + destruct (N.leb_spec deadline (now st + ms)).
      * by destruct (elapse_fires ms st deadline Ht) as [-> _].
      * by destruct (elapse_pending ms st deadline Ht) as [-> _].
    + by destruct (elapse_idle ms st Ht) as [-> _].
  - destruct (step_error a st Ha) as (-> & _). rewrite handler_state.
    destruct a; try discriminate Ha; cbn; repeat case_match; reflexivity.
Qed.

(** Time passing touches the clock, the error slot and its timer, and
    nothing else. *)
Lemma elapse_rest (ms : N) (st : AppState) :
  isLoading (elapse ms st) = isLoading st
  ∧ suspended (elapse ms st) = suspended st
  ∧ weather (elapse ms st) = weather st
  ∧ console (elapse ms st) = console st
  ∧ spoken (elapse ms st) = spoken st
  ∧ selectedDate (elapse ms st) = selectedDate st.
Proof.
  unfold elapse. destruct (errorTimer st) as [deadline |]; [| cbn; auto 10].
  destruct (_ <=? _)%N; cbn; [| auto 10].
  set (fired := set_errorTimer None _).
  destruct (effects_loading fired (set_error None fired))
    as (-> & -> & -> & Hl).
  rewrite decide_True in Hl by reflexivity.
  injection Hl as -> ->.
  rewrite effects_spoken, decide_True by done.
  auto 10.
Qed.

(** X4.  The spinner flag after an event: a change to another region and
    the start of a download raise it, the end of a pending weather load or
    download lowers it, and nothing else touches it. *)
Theorem isLoading_changes_by_event (a : Action) (st : AppState) :
  isLoading (step a st) =
  match a with
  | RegionChange region =>
      if bool_decide (region ≠ selectedRegion st) then true else isLoading st
  | DownloadOfflineContent => true
  | Resolve k => if bool_decide (k ∈ suspended st) then false else isLoading st
  | _ => isLoading st
  end.
Proof.
  destruct (is_elapse a) eqn:Ha.
  - destruct a; try discriminate Ha. cbn [step].
    by destruct (elapse_rest ms st) as (-> & _).
  - rewrite step_effects by assumption.
    destruct (effects_loading st (state_of (handler a st)))
      as (_ & _ & _ & Hl).
    rewrite handler_selectedRegion in Hl.
    assert (Hfst : ∀ p q : bool * list Suspended, p = q → p.1 = q.1)
      by (by intros ? ? ->).
    apply Hfst in Hl. cbn [fst] in Hl. rewrite Hl, handler_state.
    destruct a as [region | | | | | | | | | | | | | | k |]; cbn;
      try (by rewrite decide_True by reflexivity).
    + case_bool_decide as Hne; case_decide; cbn; try reflexivity; congruence.
    + rewrite decide_True by reflexivity. by repeat case_match.
    + rewrite decide_True by reflexivity. by repeat case_match.
    + rewrite decide_True by reflexivity. by repeat case_match.
    + rewrite decide_True by reflexivity. case_bool_decide as Hin.
      * destruct (suspended_found _ _ Hin) as [i ->]. by destruct k.
      * by rewrite (suspended_not_found _ _ Hin).
Qed.

Lemma step_selectedRegion (a : Action) (st : AppState) :
  selectedRegion (step a st) =
  match a with
  | RegionChange region => region
  | _ => selectedRegion st
  end.
Proof.
  rewrite <- handler_selectedRegion. unfold selectedRegion.
  by rewrite step_storage.
Qed.

Lemma step_loading (a : Action) (st : AppState) :
  is_elapse a = false →
  let st' := state_of (handler a st) in
  weather (step a st) = weather st'
  ∧ console (step a st) = console st'
  ∧ isLoading (step a st) =
    (if decide (selectedRegion st = selectedRegion st') then isLoading st'
     else true)
  ∧ suspended (step a st) =
    (if decide (selectedRegion st = selectedRegion st') then suspended st'
     else suspended st' ++ [AwaitWeather]).
Proof.
  intros Ha st'. rewrite step_effects by assumption. fold st'.
  destruct (effects_loading st st') as (-> & -> & _ & Hl).
  case_decide; injection Hl as -> ->; auto.
Qed.

Lemma step_spoken (a : Action) (st : AppState) :
  is_elapse a = false →
  let st' := state_of (handler a st) in
  spoken (step a st) =
  if decide (currentView st = currentView st'
             ∧ voiceEnabled st = voiceEnabled st')
  then spoken st'
  else if voiceEnabled st'
       then spoken st' ++ [viewAnnouncement (currentView st')]
       else spoken st'.
Proof.
  intros Ha st'. rewrite step_effects by assumption. apply effects_spoken.
Qed.

Lemma availablePOIs_eq (st : AppState) :
  availablePOIs st =
  if decide (selectedRegion st = "") then []
  else default [] (samplePOIs !! selectedRegion st).
Proof. reflexivity. Qed.


(** X6.  What is announced after an event, the voice being on: the new view
    when the view changes, the current view when the voice has just been
    turned on, the success of an optimisation, the suggestion applied, the
    text a panel asks for, the end of a download.  With the voice off
    nothing is announced, and no other event announces anything. *)
Theorem announcements_by_event (a : Action) (st : AppState) :
  spoken (step a st) =
  spoken st ++
  match a with
  | SetCurrentView view =>
      if voiceEnabled st && bool_decide (view ≠ currentView st)
      then [viewAnnouncement view] else []
  | SetVoiceEnabled on =>
      if on && negb (voiceEnabled st)
      then [viewAnnouncement (currentView st)] else []
  | OptimizeItinerary =>
      match optimizeHook (itinerary st) with
      | inr _ =>
          if voiceEnabled st
          then ["Itinerary optimized for best visiting times and travel efficiency."]
          else []
      | inl _ => []
      end
  | ApplyAISuggestion suggestion =>
      if voiceEnabled st
      then ["Applied AI suggestion: " +:+ suggestion_title suggestion]
      else []
  | Speak text => if voiceEnabled st then [text] else []
  | Resolve AwaitDownload =>
      if voiceEnabled st && bool_decide (AwaitDownload ∈ suspended st)
      then ["Offline content downloaded. Maps and site information available without internet."]
      else []
  | _ => []
  end.
Proof.
  destruct (is_elapse a) eqn:Ha.
  - destruct a; try discriminate Ha. cbn [step].
    destruct (elapse_rest ms st) as (_ & _ & _ & _ & -> & _).
    by rewrite app_nil_r.
  - rewrite step_spoken by assumption. cbn zeta.
    unfold currentView, voiceEnabled. rewrite handler_state.
    fold (voiceEnabled st). fold (currentView st).
    destruct a as [| | | view | | on | | | | | | | | | k |];
      try discriminate Ha; cbn;
      rewrite ?read_write, ?read_write_ne by done;
      fold (voiceEnabled st); fold (currentView st).
    + case_bool_decide; cbn; rewrite ?read_write_ne by done;
        fold (voiceEnabled st); fold (currentView st);
        rewrite decide_True by done; by rewrite app_nil_r.
    + rewrite decide_True by done. by rewrite app_nil_r.
    + rewrite decide_True by done. by rewrite app_nil_r.
    + destruct (voiceEnabled st);
        case_bool_decide as Hview; case_decide as Hsame; cbn;
        rewrite ?app_nil_r; try reflexivity;
        (destruct Hsame as [Hv _] || (exfalso; apply Hsame; split));
        congruence.
    + rewrite decide_True by done. by rewrite app_nil_r.
    + destruct on, (voiceEnabled st); case_decide as Hsame; cbn;
        rewrite ?app_nil_r; try reflexivity;
        (destruct Hsame as [_ Hv] || (exfalso; apply Hsame; split));
        congruence.
    + rewrite decide_True by done. by rewrite app_nil_r.
    + rewrite decide_True by done. by rewrite app_nil_r.
    + rewrite decide_True by done. by rewrite app_nil_r.
    + rewrite decide_True by done. by rewrite app_nil_r.
    + destruct (optimizeHook (itinerary st)); cbn;
        [| destruct (voiceEnabled st) eqn:Hv; cbn; fold (voiceEnabled st);
           rewrite ?Hv];
        rewrite decide_True by done; by rewrite ?app_nil_r.
    + rewrite decide_True by done. by rewrite app_nil_r.
    + destruct (voiceEnabled st) eqn:Hv; cbn; fold (voiceEnabled st);
        rewrite ?Hv; rewrite decide_True by done; by rewrite ?app_nil_r.
    + destruct (voiceEnabled st) eqn:Hv; cbn; fold (voiceEnabled st);
        rewrite ?Hv; rewrite decide_True by done; by rewrite ?app_nil_r.
    + destruct k.
      * destruct (list_find _ _) as [[i ?] |]; cbn;
          fold (voiceEnabled st); fold (currentView st);
          rewrite decide_True by done; by rewrite app_nil_r.
      * destruct (decide (AwaitDownload ∈ suspended st)) as [Hin | Hout].
        -- destruct (suspended_found _ _ Hin) as [i ->].
           rewrite (bool_decide_eq_true_2 _ Hin), andb_true_r.
           destruct (voiceEnabled st) eqn:Hv; cbn;
             rewrite ?read_write_ne by done;
             fold (voiceEnabled st); fold (currentView st); rewrite ?Hv;
             rewrite decide_True by done; by rewrite ?app_nil_r.
        -- rewrite (suspended_not_found _ _ Hout).
           rewrite (bool_decide_eq_false_2 _ Hout), andb_false_r.
           rewrite decide_True by done. by rewrite app_nil_r.
Qed.

(** ** The two simulated loads *)

(** X7.  A change to another region starts a weather load: the spinner flag
    is up, the old snapshot stays until the load ends, and when it ends the
    snapshot is the mock one and the flag is down.  Choosing the selected
    region again starts no load. *)
Theorem region_change_reloads_weather (st : AppState) (region : string) :
  region ≠ selectedRegion st →
  let loading := step (RegionChange region) st in
  let loaded := step (Resolve AwaitWeather) loading in
  isLoading loading = true
  ∧ weather loading = weather st
  ∧ suspended loading = suspended st ++ [AwaitWeather]
  ∧ weather loaded = Some mockWeather
  ∧ isLoading loaded = false
  ∧ selectedRegion loaded = region
  ∧ suspended (step (RegionChange (selectedRegion st)) st) = suspended st.
Proof.
  clear samplePOIs useAISuggestions.
  intros Hne loading loaded.
  assert (Hloading : isLoading loading = true ∧ weather loading = weather st
                     ∧ suspended loading = suspended st ++ [AwaitWeather]).
  { destruct (step_loading (RegionChange region) st eq_refl)
      as (Hw & _ & Hl & Hs).
    fold loading in Hw, Hl, Hs. rewrite handler_selectedRegion in Hl, Hs.
    rewrite decide_False in Hl by congruence.
    rewrite decide_False in Hs by congruence.
    rewrite Hw, Hl, Hs, handler_state. cbn. by case_bool_decide. }
  destruct Hloading as (Hl & Hw & Hs).
  assert (Hfound : ∃ i, list_find (λ k', k' = AwaitWeather) (suspended loading)
                        = Some (i, AwaitWeather)).
  { apply suspended_found. rewrite Hs. set_solver. }
  destruct Hfound as [i Hi].
  destruct (step_loading (Resolve AwaitWeather) loading eq_refl)
    as (Hw' & _ & Hl' & _).
  fold loaded in Hw', Hl'. rewrite handler_selectedRegion in Hl'.
  rewrite decide_True in Hl' by reflexivity.
  rewrite handler_state, Hi in Hw', Hl'. cbn in Hw', Hl'.
  split_and!; try assumption.
  - unfold loaded, loading. by rewrite !step_selectedRegion.
  - destruct (step_loading (RegionChange (selectedRegion st)) st eq_refl)
      as (_ & _ & _ & Hsame).
    rewrite handler_selectedRegion, decide_True in Hsame by reflexivity.
    rewrite Hsame, handler_state. cbn. by case_bool_decide.
Qed.

Lemma download_ends (st : AppState) :
  AwaitDownload ∈ suspended st →
  let done := step (Resolve AwaitDownload) st in
  offlineMode done = true ∧ isLoading done = false
  ∧ itinerary done = itinerary st ∧ error done = error st.
Proof.
  intros Hin. destruct (suspended_found _ _ Hin) as [i Hi]. cbn zeta.
  destruct (step_loading (Resolve AwaitDownload) st eq_refl)
    as (_ & _ & Hl & _).
  rewrite handler_selectedRegion, decide_True in Hl by reflexivity.
  destruct (step_error (Resolve AwaitDownload) st eq_refl) as (He & _).
  rewrite Hl, He, step_itinerary by reflexivity.
  unfold offlineMode. rewrite step_storage, handler_state, Hi.
  destruct (voiceEnabled st); cbn; by rewrite read_write.
Qed.

Lemma download_starts (st : AppState) :
  let downloading := step DownloadOfflineContent st in
  isLoading downloading = true
  ∧ suspended downloading = suspended st ++ [AwaitDownload]
  ∧ storage downloading = storage st
  ∧ itinerary downloading = itinerary st
  ∧ error downloading = error st.
Proof.
  cbn zeta.
  destruct (step_loading DownloadOfflineContent st eq_refl)
    as (_ & _ & Hl & Hs).
  rewrite handler_selectedRegion, decide_True in Hl by reflexivity.
  rewrite handler_selectedRegion, decide_True in Hs by reflexivity.
  destruct (step_error DownloadOfflineContent st eq_refl) as (He & _).
  rewrite Hl, Hs, He, step_storage, step_itinerary by reflexivity.
  by rewrite handler_state.
Qed.

(** X8.  The download: when it starts the spinner flag is up and the offline
    mode is what it was; when it ends the offline mode is on and the flag is
    down.  Neither step touches the itinerary or the error slot. *)
Theorem download_turns_offline_mode_on (st : AppState) :
  let downloading := step DownloadOfflineContent st in
  let done := step (Resolve AwaitDownload) downloading in
  isLoading downloading = true
  ∧ offlineMode downloading = offlineMode st
  ∧ offlineMode done = true
  ∧ isLoading done = false
  ∧ itinerary done = itinerary st
  ∧ error done = error st.
Proof.
  intros downloading done.
  destruct (download_starts st) as (Hl & Hs & Hsto & Hitin & Herr).
  fold downloading in Hl, Hs, Hsto, Hitin, Herr.
  destruct (download_ends downloading) as (Hon & Hl' & Hitin' & Herr').
  { rewrite Hs. set_solver. }
  fold done in Hon, Hl', Hitin', Herr'.
  split_and!; try assumption; try congruence.
  unfold offlineMode. by rewrite Hsto.
Qed.

(** X9.  Once the offline mode is on it stays on, whatever happens next. *)
Theorem offlineMode_stays_on (trace : list Action) (st : AppState) :
  offlineMode st = true → offlineMode (run trace st) = true.
Proof.
  revert st. induction trace as [| a trace IH]; intros st Hon; [exact Hon |].
  cbn. apply IH. clear IH. revert Hon.
  unfold offlineMode. rewrite step_storage, handler_state.
  intros Hon.
  destruct a as [| | | | | | | | | | | | | | k |]; cbn;
    rewrite ?read_write_ne by done; try exact Hon.
  - case_bool_decide; cbn; by rewrite ?read_write_ne by done.
  - by repeat case_match.
  - by repeat case_match.
  - by repeat case_match.
  - destruct (list_find _ _) as [[i ?] |]; [| exact Hon].
    destruct k; cbn; [exact Hon |].
    destruct (voiceEnabled st); cbn; by rewrite read_write.
Qed.

(** ** States the component can reach *)

Lemma reachable_raised (st : AppState) :
  reachable st → error st = None ∨ raised (error st).
Proof.
  induction 1 as [persisted today t0 | a st Hreach IH].
  - left. pose proof (mount_timer_inv persisted today t0) as Hinv.
    unfold timer_inv in Hinv.
    destruct (error (mount persisted today t0)) eqn:He; [| reflexivity].
    exfalso. revert He. unfold mount, viewEffect_body.
    set (st := errorEffect_body _).
    destruct (voiceEnabled st); [rewrite speak_runs |]; cbn;
      repeat case_match; discriminate.
  - destruct (is_elapse a) eqn:Ha.
    + destruct a; try discriminate Ha. cbn [step].
      destruct (errorTimer st) as [deadline |] eqn:Ht.
      * destruct (N.le_gt_cases deadline (now st + ms)) as [Hle | Hgt].
        -- left. by destruct (elapse_fires ms st deadline Ht Hle).
        -- by destruct (elapse_pending ms st deadline Ht Hgt) as [-> _].
      * by destruct (elapse_idle ms st Ht) as [-> _].
    + destruct (step_error a st Ha) as (-> & _).
      destruct (handler_frame a st) as (_ & _ & [-> | Hr] & _); auto.
Qed.

(** X10.  In every state the component can reach, the error slot holds
    nothing or one of the three messages of the source; while it holds a
    message the timer that clears it is pending and due within 5000 ms, and
    while it holds nothing no timer is pending. *)
Theorem error_slot_invariant (st : AppState) :
  reachable st →
  match error st with
  | Some m =>
      raised (Some m)
      ∧ ∃ deadline, errorTimer st = Some deadline
                    ∧ (now st < deadline ≤ now st + 5000)%N
  | None => errorTimer st = None
  end.
Proof.
  intros Hreach.
  pose proof (reachable_timer_inv st Hreach) as Hinv.
  pose proof (reachable_raised st Hreach) as Hr.
  unfold timer_inv in Hinv.
  destruct (error st) as [m |]; [| exact Hinv].
  split; [| exact Hinv]. by destruct Hr.
Qed.

(** X11.  What a reachable state shows: the spinner alone while the flag is
    up; otherwise the page, whose error notification is the content of the
    error slot, no message being hidden by the test [error &&], and whose
    tabs are told that the itinerary has items exactly when it has. *)
Theorem render_shows_the_error_slot (st : AppState) :
  reachable st →
  if isLoading st then render samplePOIs st = LoadingSpinner
  else ∃ page, render samplePOIs st = Rendered page
               ∧ errorNotification page = error st
               ∧ offlineIndicator page = offlineMode st
               ∧ tabs_currentView page = currentView st
               ∧ (tabs_hasItineraryItems page = true ↔ itinerary st ≠ []).
Proof.
  intros Hreach. unfold render. destruct (isLoading st); [reflexivity |].
  eexists. split; [reflexivity |]. cbn. split_and!; try reflexivity.
  - destruct (reachable_raised st Hreach) as [-> | Hr]; [reflexivity |].
    by rewrite (raised_truthy _ Hr).
  - rewrite bool_decide_eq_true. destruct (itinerary st); cbn; [| split].
    + split; [lia | done].
    + done.
    + lia.
Qed.

Lemma now_step (a : Action) (st : AppState) :
  (now st ≤ now (step a st))%N.
Proof.
  destruct (is_elapse a) eqn:Ha.
  - destruct a; try discriminate Ha. cbn [step]. rewrite elapse_now. lia.
  - destruct (step_error a st Ha) as (_ & -> & _). lia.
Qed.

Lemma now_run (trace : list Action) (st : AppState) :
  (now st ≤ now (run trace st))%N.
Proof.
  revert st. induction trace as [| a trace IH]; intros st; cbn; [lia |].
  etrans; [apply (now_step a) | apply IH].
Qed.

Lemma optimize_error_persists (deadline : N) (a : Action) (st : AppState) :
  showing "Failed to optimize itinerary. Please try again." deadline st →
  (now (step a st) < deadline)%N →
  showing "Failed to optimize itinerary. Please try again." deadline
    (step a st).
Proof.
  intros (He & Ht & Hn) Hlt. destruct (is_elapse a) eqn:Ha.
  - destruct a; try discriminate Ha. cbn [step] in *.
    rewrite elapse_now in Hlt.
    destruct (elapse_pending ms st deadline Ht Hlt) as [He' Ht'].
    unfold showing. rewrite He', Ht', elapse_now. auto.
  - destruct (step_error a st Ha) as (He' & Hnow & Ht').
    assert (Hsame : error (state_of (handler a st)) = error st).
    { rewrite handler_state. destruct a; cbn; repeat case_match; cbn;
        congruence. }
    rewrite decide_True in Ht' by congruence.
    unfold showing. rewrite He', Ht', Hnow, Hsame. auto.
Qed.

(** X12.  After a failed optimisation in a state that shows no error, the
    message stays in the slot until 5000 ms have passed, whatever happens in
    between: further failures, region changes, downloads and weather loads
    included. *)
Theorem optimize_error_stays_five_seconds
    (st : AppState) (err : Exn) (trace : list Action) :
  error st = None →
  optimizeHook (itinerary st) = inl err →
  let st' := run trace (step OptimizeItinerary st) in
  (now st' < now st + 5000)%N →
  error st' = Some "Failed to optimize itinerary. Please try again.".
Proof.
  intros Hnone Hthrow st' Hlt.
  assert (Hshow : showing "Failed to optimize itinerary. Please try again."
                    (now st + 5000) (step OptimizeItinerary st)).
  { destruct (step_error OptimizeItinerary st eq_refl) as (He & Hnow & Ht).
    unfold showing. rewrite He, Hnow, Ht. cbn [handler].
    rewrite (handleOptimizeItinerary_throwing _ _ Hthrow). cbn.
    rewrite decide_False by congruence. split_and!; [done | done | lia]. }
  unfold st' in *. clear st'.
  revert Hshow Hlt. generalize (step OptimizeItinerary st) as s.
  induction trace as [| a trace IH]; intros s Hshow Hlt.
  - apply Hshow.
  - cbn in *. apply IH; [| exact Hlt].
    apply optimize_error_persists; [exact Hshow |].
    eapply N.le_lt_trans; [apply now_run | exact Hlt].
Qed.

(** ** The preferences, update after update *)

(** X13.  Preference updates compose as the spreads they are: the empty
    update changes nothing, an update made twice is the update made once,
    and two updates in a row are the one update [{...first, ...second}]. *)
Theorem preference_updates_compose (st : AppState) (first second : JsObject) :
  userPreferences (step (UserPreferencesUpdate ∅) st) = userPreferences st
  ∧ userPreferences
      (run [UserPreferencesUpdate first; UserPreferencesUpdate first] st)
    = userPreferences (step (UserPreferencesUpdate first) st)
  ∧ userPreferences
      (run [UserPreferencesUpdate first; UserPreferencesUpdate second] st)
    = userPreferences
        (step (UserPreferencesUpdate (spread first second)) st).
Proof.
  assert (Hupd : ∀ u s, userPreferences (step (UserPreferencesUpdate u) s)
                        = spread (userPreferences s) u).
  { intros u s. rewrite step_userPreferences by reflexivity.
    by destruct (handler_frame (UserPreferencesUpdate u) s)
      as (_ & _ & _ & ->). }
  cbn [run fold_left]. rewrite !Hupd. unfold spread. split_and!.
  - apply (left_id ∅ (∪)).
  - by rewrite (assoc_L (∪)), (idemp_L (∪)).
  - by rewrite (assoc_L (∪)).
Qed.

(** ** The first render *)



(** ** Time *)

Lemma elapse_state (ms : N) (st : AppState) :
  elapse ms st =
  match errorTimer st with
  | Some deadline =>
      if (deadline <=? now st + ms)%N
      then set_now (now st + ms)
             (set_errorTimer None (set_error None st))
      else set_now (now st + ms) st
  | None => set_now (now st + ms) st
  end.
Proof.
  unfold elapse. destruct (errorTimer st) as [deadline |]; [| reflexivity].
  destruct (_ <=? _)%N; [| reflexivity].
  unfold effects, viewEffect, errorEffect, errorEffect_body, weatherEffect.
  cbn. repeat (case_decide; cbn); try reflexivity;
    exfalso;
    match goal with
    | H : ¬ _ |- _ => apply H; repeat split; reflexivity
    end.
Qed.

(** X15.  Time adds up: two spans one after the other leave the state that
    the one span of their sum leaves, the timer firing in whichever span its
    deadline falls. *)
Theorem elapse_adds_up (first second : N) (st : AppState) :
  step (Elapse second) (step (Elapse first) st)
  = step (Elapse (first + second)) st.
Proof.
  cbn [step]. rewrite !elapse_state.
  destruct (errorTimer st) as [deadline |] eqn:Ht; cbn.
  - destruct (N.leb_spec deadline (now st + first)) as [Hle | Hgt]; cbn.
    + destruct (N.leb_spec deadline (now st + (first + second))); [| lia].
      by rewrite N.add_assoc.
    + rewrite Ht.
      destruct (N.leb_spec deadline (now st + first + second));
        destruct (N.leb_spec deadline (now st + (first + second)));
        try lia; cbn; by rewrite N.add_assoc.
  - rewrite Ht. by rewrite N.add_assoc.
Qed.

(** ** The itinerary and the region *)

(** X16.  The itinerary holds POIs of the selected region only: when the
    itinerary is within the POIs on offer, the list a successful
    optimisation returns holds no POI its input did not hold, and every POI
    added is one of those on offer, the itinerary is within the POIs on
    offer after any run of events. *)
Theorem itinerary_within_region (trace : list Action) (st : AppState) :
  (∀ l l', optimizeHook l = inr l' → l' ⊆ l) →
  itinerary st ⊆ availablePOIs st →
  offered samplePOIs mockWeather optimizeHook trace st →
  itinerary (run trace st) ⊆ availablePOIs (run trace st).
Proof.
  intros Hhook. revert st.
  induction trace as [| a trace IH]; intros st Hin Hoff; [exact Hin |].
  destruct Hoff as [Ha Hoff]. cbn. apply IH; [| exact Hoff]. clear IH Hoff.
  rewrite !availablePOIs_eq, step_selectedRegion.
  rewrite availablePOIs_eq in Hin.
  destruct (is_elapse a) eqn:He.
  - destruct a; try discriminate He. cbn [step].
    by destruct (elapse_frame ms st) as [_ ->].
  - rewrite step_itinerary, handler_state by assumption.
    destruct a; try discriminate He; cbn; try exact Hin.
    + case_bool_decide as Hne; cbn.
      * apply list_subseteq_nil.
      * destruct (decide (region = selectedRegion st)) as [-> | Hd];
          [exact Hin | contradiction].
    + rewrite availablePOIs_eq in Ha. unfold Itinerary.addPOI.
      destruct (decide (Exists _ (itinerary st))); [exact Hin |].
      intros p Hp. apply elem_of_app in Hp as [Hp | Hp]; [by apply Hin |].
      apply list_elem_of_singleton in Hp. by subst p.
    + unfold Itinerary.removePOI. intros p Hp.
      apply list_elem_of_filter in Hp as [_ Hp]. by apply Hin.
    + destruct (optimizeHook (itinerary st)) as [err | l] eqn:Hopt; cbn;
        [exact Hin |].
      destruct (voiceEnabled st); cbn;
        (etrans; [exact (Hhook _ _ Hopt) | exact Hin]).
    + apply list_subseteq_nil.
    + by destruct (voiceEnabled st).
    + by destruct (voiceEnabled st).
    + destruct (list_find _ _) as [[i ?] |]; [| exact Hin].
      destruct k; cbn; [exact Hin |]. by destruct (voiceEnabled st).
Qed.

Lemma reachable_run (trace : list Action) (st : AppState) :
  reachable st → reachable (run trace st).
Proof.
  revert st. induction trace as [| a trace IH]; intros st Hreach;
    [exact Hreach |].
  cbn. apply IH. by constructor.
Qed.

End AppFacts.

(** ** The itinerary model *)

Section ItineraryFacts.
Import Itinerary.

Lemma addPOI_cases (poi : POI) (prev : list POI) :
  addPOI poi prev =
  if bool_decide (poi_id poi ∈ (poi_id <$> prev)) then prev else prev ++ [poi].
Proof.
  unfold addPOI.
  destruct (decide (Exists _ prev)) as [Hex | Hex];
    case_bool_decide as Hin; try reflexivity; exfalso.
  - apply Hin. apply Exists_exists in Hex as (q & Hq & Heq).
    rewrite <- Heq. apply list_elem_of_fmap. eauto.
  - apply Hex. apply list_elem_of_fmap in Hin as (q & Heq & Hq).
    apply Exists_exists. eauto.
Qed.

Lemma addPOI_NoDup (poi : POI) (prev : list POI) :
  NoDup (poi_id <$> prev) → NoDup (poi_id <$> addPOI poi prev).
Proof.
  intros Hnd. rewrite addPOI_cases. case_bool_decide as Hin; [assumption |].
  rewrite fmap_app. apply NoDup_app. split_and!; [assumption | | ].
  - intros x Hx Hx'. cbn in Hx'. apply list_elem_of_singleton in Hx'.
    subst x. contradiction.
  - cbn. apply NoDup_singleton.
Qed.

Lemma removePOI_NoDup (id : string) (prev : list POI) :
  NoDup (poi_id <$> prev) → NoDup (poi_id <$> removePOI id prev).
Proof.
  intros Hnd. eapply sublist_NoDup; [exact Hnd |].
  apply fmap_sublist, sublist_filter.
Qed.

Lemma apply_edits_NoDup (es : list Edit) (itin : list POI) :
  NoDup (poi_id <$> itin) → NoDup (poi_id <$> apply_edits es itin).
Proof.
  revert itin. induction es as [| e es IH]; intros itin Hnd; [assumption |].
  cbn. apply IH. destruct e; cbn; auto using addPOI_NoDup, removePOI_NoDup.
Qed.

(** Sums as the left-to-right reduction computes them. *)
Lemma fold_left_sum {A} (f : A → Z) (l : list A) (a : Z) :
  fold_left (λ sum x, sum + f x) l a = a + foldr Z.add 0 (f <$> l).
Proof.
  revert a. induction l as [| x l IH]; intros a; cbn; [lia |].
  rewrite IH. lia.
Qed.

Section OptimizeFacts.
Variable hintRank : POI → nat.
Variable proximity : POI → nat.

Local Abbreviation before :=
  (λ p q, visit_before hintRank proximity p q = true).
Local Abbreviation place' := (place hintRank proximity).
Local Abbreviation optimize' := (optimize hintRank proximity).

Lemma visit_before_total (p q : POI) :
  visit_before hintRank proximity p q = false →
  visit_before hintRank proximity q p = true.
Proof.
  unfold visit_before.
  repeat case_decide; intros Hf;
    try apply bool_decide_eq_false in Hf;
    apply bool_decide_eq_true; lia.
Qed.

Lemma place_Permutation (p : POI) (l : list POI) : place' p l ≡ₚ p :: l.
Proof.
  induction l as [| q l IH]; cbn; [done |].
  destruct (visit_before _ _ p q); [done |].
  rewrite IH. apply Permutation_swap.
Qed.

Lemma place_HdRel (p q : POI) (l : list POI) :
  before q p → HdRel before q l → HdRel before q (place' p l).
Proof.
  intros Hqp Hl. destruct l as [| r l]; cbn.
  - by constructor.
  - destruct (visit_before _ _ p r); constructor; [assumption |].
    by inversion Hl.
Qed.

Lemma place_Sorted (p : POI) (l : list POI) :
  Sorted before l → Sorted before (place' p l).
Proof.
  induction 1 as [| q l Hs IH Hhd]; cbn.
  - repeat constructor.
  - destruct (visit_before _ _ p q) eqn:Hpq.
    + repeat constructor; assumption.
    + constructor; [assumption |].
      apply place_HdRel; [| assumption]. by apply visit_before_total.
Qed.

Lemma optimize_Sorted (l : list POI) : Sorted before (optimize' l).
Proof.
  induction l as [| p l IH]; cbn; [constructor | by apply place_Sorted].
Qed.

Lemma optimize_fixed (l : list POI) : Sorted before l → optimize' l = l.
Proof.
  induction 1 as [| p l Hs IH Hhd]; cbn; [reflexivity |].
  unfold optimize in IH. rewrite IH.
  destruct Hhd as [| q l Hpq]; cbn; [reflexivity |]. by rewrite Hpq.
Qed.

End OptimizeFacts.

(** C1.  Whatever sequence of [addPOI] and [removePOI] is applied to the
    empty itinerary, no two entries of the result share an identifier; and
    [addPOI] leaves the itinerary as it is when the identifier of the POI is
    present already, and otherwise puts the POI after the last entry. *)
Theorem itinerary_never_has_duplicates (es : list Edit) :
  NoDup (poi_id <$> apply_edits es [])
  ∧ ∀ (poi : POI) (itin : list POI),
      addPOI poi itin =
      if bool_decide (poi_id poi ∈ (poi_id <$> itin)) then itin
      else itin ++ [poi].
Proof.
  split.
  - apply apply_edits_NoDup. constructor.
  - apply addPOI_cases.
Qed.

(** C2.  For every ranking of the hints and every distance, [optimize]
    returns a permutation of the entries it is given, and a second
    [optimize] right after the first changes nothing. *)
Theorem optimize_permutes_and_converges
    (hintRank proximity : POI → nat) (itin : list POI) :
  optimize hintRank proximity itin ≡ₚ itin
  ∧ optimize hintRank proximity (optimize hintRank proximity itin)
    = optimize hintRank proximity itin.
Proof.
  split.
  - induction itin as [| p l IH]; cbn; [done |].
    rewrite place_Permutation. by constructor.
  - apply optimize_fixed, optimize_Sorted.
Qed.

(** C3.  The total time is the sum of the durations of the entries and the
    total cost the sum of their costs, 0 for the empty itinerary.  With A
    (60 minutes, free) and B (90 minutes, 15) added the totals are 150 and
    15; with A removed again they are 90 and 15. *)
Theorem totals_are_sums :
  (∀ itin : list POI,
     calculateTotalTime itin = foldr Z.add 0 (poi_duration <$> itin)
     ∧ calculateTotalCost itin = foldr Z.add 0 (poi_cost <$> itin))
  ∧ calculateTotalTime [] = 0 ∧ calculateTotalCost [] = 0
  ∧ ∀ A B : POI,
      poi_id A ≠ poi_id B →
      poi_duration A = 60 → poi_cost A = 0 →
      poi_duration B = 90 → poi_cost B = 15 →
      let added := apply_edits [Add A; Add B] [] in
      let removed := apply_edits [Remove (poi_id A)] added in
      calculateTotalTime added = 150 ∧ calculateTotalCost added = 15
      ∧ calculateTotalTime removed = 90 ∧ calculateTotalCost removed = 15.
Proof.
  split_and!; try reflexivity.
  - intros itin. unfold calculateTotalTime, calculateTotalCost.
    rewrite !fold_left_sum. split; lia.
  - intros A B Hid HdA HcA HdB HcB. cbn.
    assert (Hadded : addPOI B (addPOI A []) = [A; B]).
    { rewrite !addPOI_cases. cbn. rewrite bool_decide_eq_false_2; [done |].
      intros Hin. apply list_elem_of_singleton in Hin. congruence. }
    rewrite Hadded. unfold removePOI. rewrite !filter_cons, filter_nil.
    destruct (decide (poi_id A ≠ poi_id A)) as [Hne | _]; [done |].
    destruct (decide (poi_id B ≠ poi_id A)) as [_ | Heq];
      [| exfalso; apply Heq; congruence].
    unfold calculateTotalTime, calculateTotalCost. cbn.
    rewrite HdA, HcA, HdB, HcB. done.
Qed.

Lemma totals_are_sums_witness :
  let added := apply_edits [Add poiA; Add poiB] [] in
  let removed := apply_edits [Remove "A"] added in
  calculateTotalTime added = 150 ∧ calculateTotalCost added = 15
  ∧ calculateTotalTime removed = 90 ∧ calculateTotalCost removed = 15.
Proof.
  destruct totals_are_sums as (_ & _ & _ & Hex).
  apply (Hex poiA poiB); [discriminate | reflexivity ..].
Defined.

End ItineraryFacts.

(** * The theorems at work on sample data *)

Section Samples.

Local Abbreviation step' := (step sampleWeather sampleHook).
Local Abbreviation run' := (run sampleWeather sampleHook).

Lemma region_change_empties_itinerary_witness :
  itinerary planned = [poiA; poiB]
  ∧ "Historic Boston, MA" ≠ selectedRegion planned
  ∧ itinerary (step' (RegionChange "Historic Boston, MA") planned) = [].
Proof.
  assert (Hne : "Historic Boston, MA" ≠ selectedRegion planned)
    by (vm_compute; discriminate).
  pose proof (region_change_empties_itinerary sampleWeather sampleHook planned
                "Historic Boston, MA" Hne) as (_ & _ & Hempty & _).
  split_and!; [vm_compute; reflexivity | exact Hne | exact Hempty].
Defined.

Lemma optimize_failure_is_caught_witness :
  sampleHook (itinerary unplaceable) = inl (JsError "entry without a best time")
  ∧ threw (handleOptimizeItinerary sampleHook unplaceable) = false
  ∧ error (step' OptimizeItinerary unplaceable) = Some optimizeMessage
  ∧ itinerary (step' OptimizeItinerary unplaceable) = itinerary unplaceable.
Proof.
  assert (Hthrow : sampleHook (itinerary unplaceable)
                   = inl (JsError "entry without a best time"))
    by (vm_compute; reflexivity).
  pose proof (optimize_failure_is_caught sampleWeather sampleHook unplaceable
                (JsError "entry without a best time") Hthrow)
    as (Hcaught & _ & Herror & _ & Hitin & _).
  split_and!; [exact Hthrow | exact Hcaught | exact Herror | exact Hitin].
Defined.

Lemma error_slot_clears_after_change_witness :
  let failed := step' OptimizeItinerary unplaceable in
  let trace := [Elapse 2000; AddPOI poiB; Elapse 2999] in
  error unplaceable ≠ Some optimizeMessage
  ∧ error failed = Some optimizeMessage
  ∧ quiet_run sampleWeather sampleHook (trace ++ [Elapse 1]) failed = true
  ∧ now (run' trace failed) = 4999%N
  ∧ error (run' trace failed) = Some optimizeMessage
  ∧ error (run' (trace ++ [Elapse 1]) failed) = None.
Proof.
  intros failed trace.
  assert (Hfresh : error unplaceable ≠ Some optimizeMessage)
    by (vm_compute; discriminate).
  assert (Hset : error failed = Some optimizeMessage)
    by (vm_compute; reflexivity).
  assert (Hquiet : quiet_run sampleWeather sampleHook trace failed = true)
    by (vm_compute; reflexivity).
  assert (Hquiet' : quiet_run sampleWeather sampleHook (trace ++ [Elapse 1])
                      failed = true)
    by (vm_compute; reflexivity).
  pose proof (error_slot_clears_after_change sampleWeather sampleHook
                unplaceable OptimizeItinerary optimizeMessage trace
                eq_refl Hfresh Hset Hquiet) as (Hshown & _).
  pose proof (error_slot_clears_after_change sampleWeather sampleHook
                unplaceable OptimizeItinerary optimizeMessage
                (trace ++ [Elapse 1]) eq_refl Hfresh Hset Hquiet')
    as (_ & Hgone & _).
  split_and!; [exact Hfresh | exact Hset | exact Hquiet'
               | vm_compute; reflexivity | |].
  - apply Hshown. vm_compute. reflexivity.
  - apply Hgone. vm_compute. discriminate.
Defined.

(** C9, counterexample.  The slot does not stay for 5000 ms after every
    error: when the optimisation fails at 0 ms and again at 3000 ms, the
    handler setting the slot to its message both times, the slot is null at
    5000 ms, 2000 ms after it was last set. *)
Lemma repeated_error_keeps_first_deadline :
  let st := run' [OptimizeItinerary; Elapse 3000] unplaceable in
  let st' := step' OptimizeItinerary st in
  now unplaceable = 0%N
  ∧ sampleHook (itinerary st) = inl (JsError "entry without a best time")
  ∧ state_of (handleOptimizeItinerary sampleHook st)
    = set_console (console st ++ [("Optimization error:",
                                   JsError "entry without a best time")])
        (set_error (Some optimizeMessage) st)
  ∧ error st' = Some optimizeMessage
  ∧ now st' = 3000%N
  ∧ now (step' (Elapse 2000) st') = 5000%N
  ∧ error (step' (Elapse 2000) st') = None.
Proof. vm_compute. split_and!; reflexivity. Qed.

(** C8.  Applying a suggestion, on any state and for any suggestion, leaves
    the itinerary as it is, and so does the engine, whose output does not
    depend on the itinerary.  On a trip that holds Humpback Rocks, with the
    voice on, applying "Add Monticello" announces that the suggestion has
    been applied and the itinerary still holds Humpback Rocks alone. *)
Theorem applyAISuggestion_only_announces :
  (∀ mockWeather optimizeHook suggestion st,
     itinerary (step mockWeather optimizeHook (ApplyAISuggestion suggestion) st)
     = itinerary st)
  ∧ (∀ samplePOIs engine f st,
       aiSuggestions samplePOIs engine (set_itinerary f st)
       = aiSuggestions samplePOIs engine st)
  ∧ let applied := step' (ApplyAISuggestion sampleSuggestion) announced in
    itinerary announced = [poiA]
    ∧ itinerary applied = [poiA]
    ∧ spoken applied
      = spoken announced ++ ["Applied AI suggestion: Add Monticello"].
Proof.
  split_and!.
  - intros. apply applyAISuggestion_announces.
  - intros. apply aiSuggestions_ignore_itinerary.
  - vm_compute. split_and!; reflexivity.
Qed.

Lemma region_change_reloads_weather_witness :
  let loading := step' (RegionChange "Historic Boston, MA") touring in
  let loaded := step' (Resolve AwaitWeather) loading in
  "Historic Boston, MA" ≠ selectedRegion touring
  ∧ isLoading touring = false
  ∧ isLoading loading = true
  ∧ weather loaded = Some sampleWeather
  ∧ isLoading loaded = false.
Proof.
  intros loading loaded.
  assert (Hne : "Historic Boston, MA" ≠ selectedRegion touring)
    by (vm_compute; discriminate).
  pose proof (region_change_reloads_weather sampleWeather sampleHook touring
                "Historic Boston, MA" Hne)
    as (Hup & _ & _ & Hweather & Hdown & _).
  split_and!; [exact Hne | vm_compute; reflexivity | exact Hup
               | exact Hweather | exact Hdown].
Defined.

Lemma offlineMode_stays_on_witness :
  let trace := [RegionChange "Historic Boston, MA"; Elapse 60000;
                SetPrivacyMode true; DownloadOfflineContent] in
  offlineMode downloaded = true
  ∧ offlineMode (run' trace downloaded) = true.
Proof.
  intros trace.
  assert (Hon : offlineMode downloaded = true) by (vm_compute; reflexivity).
  split; [exact Hon |].
  exact (offlineMode_stays_on sampleWeather sampleHook trace downloaded Hon).
Defined.

Lemma touring_reachable : reachable sampleWeather sampleHook touring.
Proof. unfold touring. apply reachable_run. constructor. Qed.

Lemma error_slot_invariant_witness :
  let failing := step' OptimizeItinerary touring in
  reachable sampleWeather sampleHook failing
  ∧ error failing = Some optimizeMessage
  ∧ errorTimer failing = Some 5000%N
  ∧ match error failing with
    | Some m =>
        raised (Some m)
        ∧ ∃ deadline, errorTimer failing = Some deadline
                      ∧ (now failing < deadline ≤ now failing + 5000)%N
    | None => errorTimer failing = None
    end.
Proof.
  intros failing.
  assert (Hreach : reachable sampleWeather sampleHook failing)
    by (apply reachable_step, touring_reachable).
  split_and!; [exact Hreach | vm_compute; reflexivity
               | vm_compute; reflexivity |].
  exact (error_slot_invariant sampleWeather sampleHook failing Hreach).
Defined.

Lemma render_shows_the_error_slot_witness :
  let failing := step' OptimizeItinerary touring in
  reachable sampleWeather sampleHook failing
  ∧ isLoading failing = false
  ∧ ∃ page, render sampleTable failing = Rendered page
            ∧ errorNotification page = Some optimizeMessage
            ∧ panels page = [ItineraryPanel].
Proof.
  intros failing.
  assert (Hreach : reachable sampleWeather sampleHook failing)
    by (apply reachable_step, touring_reachable).
  assert (Hidle : isLoading failing = false) by (vm_compute; reflexivity).
  pose proof (render_shows_the_error_slot sampleTable sampleWeather sampleHook
                failing Hreach) as Hshown.
  rewrite Hidle in Hshown. destruct Hshown as (page & Hpage & Herr & _).
  split_and!; [exact Hreach | exact Hidle |].
  exists page. split_and!; [exact Hpage | |].
  - rewrite Herr. vm_compute. reflexivity.
  - assert (Hrender : render sampleTable failing
                      = Rendered
                          (mkPage (Some optimizeMessage) false itinerary_view
                             true [ItineraryPanel]))
      by (vm_compute; reflexivity).
    rewrite Hrender in Hpage. by injection Hpage as <-.
Defined.

Lemma optimize_error_stays_five_seconds_witness :
  let trace := [Elapse 3000; OptimizeItinerary;
                RegionChange "Historic Boston, MA"; Elapse 1999] in
  error touring = None
  ∧ sampleHook (itinerary touring) = inl (JsError "entry without a best time")
  ∧ now (run' trace (step' OptimizeItinerary touring)) = 4999%N
  ∧ error (run' trace (step' OptimizeItinerary touring))
    = Some optimizeMessage.
Proof.
  intros trace.
  assert (Hnone : error touring = None) by (vm_compute; reflexivity).
  assert (Hthrow : sampleHook (itinerary touring)
                   = inl (JsError "entry without a best time"))
    by (vm_compute; reflexivity).
  split_and!; [exact Hnone | exact Hthrow | vm_compute; reflexivity |].
  apply (optimize_error_stays_five_seconds sampleWeather sampleHook touring
           (JsError "entry without a best time") trace Hnone Hthrow).
  vm_compute. reflexivity.
Defined.

Lemma sampleHook_reorders (l l' : list POI) : sampleHook l = inr l' → l' ⊆ l.
Proof.
  unfold sampleHook. case_decide; [discriminate |].
  intros [= <-]. clear. induction l as [| p l IH]; cbn; [done |].
  intros q Hq. rewrite place_Permutation in Hq.
  apply elem_of_cons in Hq as [-> | Hq]; [by left | right; by apply IH].
Qed.

Lemma itinerary_within_region_witness :
  let trace := [RegionChange "Blue Ridge Mountains, VA"; AddPOI poiA;
                AddPOI poiB; OptimizeItinerary; RemovePOI "A"] in
  let st := mount ∅ "2025-06-01" 0 in
  itinerary st ⊆ availablePOIs sampleTable st
  ∧ offered sampleTable sampleWeather sampleHook trace st
  ∧ itinerary (run' trace st) = [poiB]
  ∧ itinerary (run' trace st) ⊆ availablePOIs sampleTable (run' trace st).
Proof.
  intros trace st.
  assert (Hstart : itinerary st ⊆ availablePOIs sampleTable st)
    by (vm_compute; apply list_subseteq_nil).
  assert (Hoffered : offered sampleTable sampleWeather sampleHook trace st).
  { cbn [offered trace]. split_and!; try exact I.
    - replace (availablePOIs sampleTable _) with [poiA; poiB; poiC]
        by (vm_compute; reflexivity).
      set_solver.
    - replace (availablePOIs sampleTable _) with [poiA; poiB; poiC]
        by (vm_compute; reflexivity).
      set_solver. }
  split_and!; [exact Hstart | exact Hoffered | vm_compute; reflexivity |].
  exact (itinerary_within_region sampleTable sampleWeather sampleHook trace st
           sampleHook_reorders Hstart Hoffered).
Defined.

End Samples.
